(** * Halide IR core (src/cpp/IR.h): nodes, reference-counted handles,
      visitor dispatch and the validating constructors.

    The C++ objects are embedded as follows.
    - The free store is a finite map from addresses to nodes; [delete]
      removes the address, [new] picks an address that is not in use.
    - A node is its [ref_count], a C++ [int] that wraps around, together
      with the members of its concrete struct.
    - A handle ([IRHandle], [Expr], [Stmt]) is the pointer it wraps;
      the null pointer is [None].
    - Handle objects that client code holds live in a second map from
      variable names to pointers, so that two references to the same
      handle object ([h = h]) are visibly the same object.  The handle
      members of a node are part of the node.  A reference to a handle
      object names one or the other.
    - A computation ends normally, is aborted by a failed [assert]
      (the file does not define NDEBUG: assertions are compiled in), or
      dereferences a null or freed pointer.
    - A constructor is entered with its by-value parameters already
      initialised; making and destroying those parameter objects is the
      caller's business and changes no count in the end. *)

From stdpp Require Import gmap gmultiset strings list fin_maps.
From Stdlib Require Import ZArith Lia.

Local Open Scope Z_scope.

(** ** The C++ [int] *)

Definition INT_MIN : Z := -2147483648.
Definition INT_MAX : Z := 2147483647.

(** Two's complement wrap-around of a 32-bit [int]. *)
Definition wrap_int (z : Z) : Z := (z + 2 ^ 31) mod 2 ^ 32 - 2 ^ 31.

(** ** Outcomes of running a piece of the program *)

Inductive result (A : Type) : Type :=
| Ok (a : A)
| AssertFail (msg : string)   (* assert(...) failed: abort(), nothing survives *)
| Undefined                   (* a null or freed pointer was dereferenced *)
| OutOfFuel.                  (* the bound on nested destructor calls ran out *)
Arguments Ok {A} a.
Arguments AssertFail {A} msg.
Arguments Undefined {A}.
Arguments OutOfFuel {A}.

(** Sequencing: anything but a normal end stops the program there. *)
Definition result_bind {A B} (r : result A) (k : A → result B) : result B :=
  match r with
  | Ok a => k a
  | AssertFail msg => AssertFail msg
  | Undefined => Undefined
  | OutOfFuel => OutOfFuel
  end.

Notation "'let?' x := r 'in' k" := (result_bind r (λ x, k))
  (at level 10, x name, r at level 100, k at level 200).

(** ** struct Type *)

Inductive Type_code := Type_Int | Type_UInt | Type_Float.
Record Type_ := { t : Type_code; bits : Z; width : Z }.

(** A C++ [float] is only stored, never computed with: its bit pattern. *)
Definition float_bits := Z.

(** ** Handles and nodes *)

(** Addresses of nodes.  A [const IRNode *node] is an [option loc];
    [None] is [NULL]. *)
Abbreviation loc := positive.

(** [struct Expr : public IRHandle] and [struct Stmt : public IRHandle]. *)
Record Expr := MkExpr { expr_node : option loc }.
Record Stmt := MkStmt { stmt_node : option loc }.

Inductive CallType := Image | Extern | Halide.
Inductive ForType := Serial | Parallel | Vectorized | Unrolled.

(** The members of each concrete struct, in declaration order. *)
Inductive Node :=
| IntImm (value : Z)
| FloatImm (value : float_bits)
| Cast (type : Type_) (value : Expr)
| Var (type : Type_) (name : string)
| Add (a b : Expr)
| Sub (a b : Expr)
| Mul (a b : Expr)
| Div (a b : Expr)
| Mod (a b : Expr)
| Min (a b : Expr)
| Max (a b : Expr)
| EQ (a b : Expr)
| NE (a b : Expr)
| LT (a b : Expr)
| LE (a b : Expr)
| GT (a b : Expr)
| GE (a b : Expr)
| And (a b : Expr)
| Or (a b : Expr)
| Not (a : Expr)
| Select (condition true_value false_value : Expr)
| Load (type : Type_) (buffer : string) (index : Expr)
| Ramp (base stride : Expr) (width : Z)
| Call (type : Type_) (buffer : string) (args : list Expr) (call_type : CallType)
| Let (name : string) (value body : Expr)
| LetStmt (name : string) (value : Expr) (body : Stmt)
| PrintStmt (prefix : string) (args : list Expr)
| AssertStmt (condition : Expr) (message : string)
| Pipeline (buffer : string) (produce update consume : Stmt)
| For (name : string) (min extent : Expr) (for_type : ForType) (body : Stmt)
| Store (buffer : string) (value index : Expr)
| Provide (buffer : string) (value : Expr) (args : list Expr)
| Allocate (buffer : string) (type : Type_) (size : Expr) (body : Stmt)
| Realize (buffer : string) (type : Type_) (bounds : list (Expr * Expr)) (body : Stmt)
| Block (first rest : Stmt).

(** [struct IRNode]: the [mutable int ref_count] and the derived
    struct's members. *)
Record IRNode := MkNode { ref_count : Z; fields : Node }.

Definition set_ref_count (c : Z) (n : IRNode) : IRNode :=
  {| ref_count := c; fields := fields n |}.

(** The handle members of a node, in declaration order (the elements of
    a vector in index order, [first] before [second] in a pair). *)
Definition pair_handles (p : Expr * Expr) : list (option loc) :=
  [expr_node p.1; expr_node p.2].

Definition members (d : Node) : list (option loc) :=
  match d with
  | IntImm _ | FloatImm _ | Var _ _ => []
  | Cast _ v => [expr_node v]
  | Add a b | Sub a b | Mul a b | Div a b | Mod a b | Min a b | Max a b
  | EQ a b | NE a b | LT a b | LE a b | GT a b | GE a b | And a b | Or a b =>
      [expr_node a; expr_node b]
  | Not a => [expr_node a]
  | Select c tv fv => [expr_node c; expr_node tv; expr_node fv]
  | Load _ _ i => [expr_node i]
  | Ramp b s _ => [expr_node b; expr_node s]
  | Call _ _ args _ => expr_node <$> args
  | Let _ v b => [expr_node v; expr_node b]
  | LetStmt _ v b => [expr_node v; stmt_node b]
  | PrintStmt _ args => expr_node <$> args
  | AssertStmt c _ => [expr_node c]
  | Pipeline _ p u c => [stmt_node p; stmt_node u; stmt_node c]
  | For _ m e _ b => [expr_node m; expr_node e; stmt_node b]
  | Store _ v i => [expr_node v; expr_node i]
  | Provide _ v args => expr_node v :: (expr_node <$> args)
  | Allocate _ _ s b => [expr_node s; stmt_node b]
  | Realize _ _ bounds b => (bounds ≫= pair_handles) ++ [stmt_node b]
  | Block f r => [stmt_node f; stmt_node r]
  end.

(** [bool defined() const { return node; }] *)
Definition defined (node : option loc) : bool :=
  match node with Some _ => true | None => false end.

(** [bool sameAs(const IRHandle &other) { return node == other.node; }] *)
Definition sameAs (node other : option loc) : bool :=
  bool_decide (node = other).

(** ** The free store *)

(** Computations over the free store. *)
Definition M (A : Type) : Type :=
  gmap loc IRNode → result (A * gmap loc IRNode).

Definition ret {A} (a : A) : M A := λ σ, Ok (a, σ).

Definition bind {A B} (m : M A) (k : A → M B) : M B := λ σ,
  let? r := m σ in k r.1 r.2.

Notation "'let*' x := m 'in' k" := (bind m (λ x, k))
  (at level 10, x name, m at level 100, k at level 200).

(** [assert(cond && "msg")], with assertions compiled in. *)
Definition assert (cond : bool) (msg : string) : M unit := λ σ,
  if cond then Ok (tt, σ) else AssertFail msg.

(** [void incref() { if (node) node->ref_count++; }] *)
Definition incref (node : option loc) : M unit := λ σ,
  match node with
  | None => Ok (tt, σ)
  | Some l =>
      match σ !! l with
      | None => Undefined
      | Some n => Ok (tt, <[l := set_ref_count (wrap_int (ref_count n + 1)) n]> σ)
      end
  end.

(** Runs [dtor] on each handle of [hs] in turn: the destruction of the
    handle members of a node. *)
Fixpoint destroy_handles
    (dtor : option loc → gmap loc IRNode → result (option loc * gmap loc IRNode))
    (hs : list (option loc)) (σ : gmap loc IRNode) : result (gmap loc IRNode) :=
  match hs with
  | [] => Ok σ
  | h :: hs' => let? r := dtor h σ in destroy_handles dtor hs' r.2
  end.

(** [void decref()]: returns the value [node] has afterwards.  The call
    [delete node] runs the node's destructor, which destroys the handle
    members in reverse declaration order, each through [~IRHandle()],
    that is by its own [decref], and then releases the storage: until
    then the node stays allocated, with the count 0.  [fuel] bounds the
    nesting of these destructor calls. *)
Fixpoint decref (fuel : nat) (node : option loc)
    (σ : gmap loc IRNode) : result (option loc * gmap loc IRNode) :=
  match node with
  | None => Ok (None, σ)
  | Some l =>
      match fuel with
      | O => OutOfFuel
      | S fuel' =>
          match σ !! l with
          | None => Undefined
          | Some n =>
              let n' := set_ref_count (wrap_int (ref_count n - 1)) n in
              let σ1 := <[l := n']> σ in
              if decide (ref_count n' = 0) then
                let? σ2 := destroy_handles (decref fuel') (rev (members (fields n))) σ1 in
                Ok (None, delete l σ2)
              else Ok (Some l, σ1)
          end
      end
  end.

(** ** Dispatch *)

(** Modelled from the spec: IRVisitor.h is not among the sources.  The
    spec (section 4.3) gives a visitor one operation per kind of the
    catalogue and no fallback; [ExprNode<T>::accept] and
    [StmtNode<T>::accept] call the overload of [visit] that takes a
    pointer to a const [T].  A
    visitor carries its own state [V]; an operation receives the node. *)
Record IRVisitor (V : Type) := {
  visit_IntImm : Z → V → V;
  visit_FloatImm : float_bits → V → V;
  visit_Cast : Type_ → Expr → V → V;
  visit_Var : Type_ → string → V → V;
  visit_Add : Expr → Expr → V → V;
  visit_Sub : Expr → Expr → V → V;
  visit_Mul : Expr → Expr → V → V;
  visit_Div : Expr → Expr → V → V;
  visit_Mod : Expr → Expr → V → V;
  visit_Min : Expr → Expr → V → V;
  visit_Max : Expr → Expr → V → V;
  visit_EQ : Expr → Expr → V → V;
  visit_NE : Expr → Expr → V → V;
  visit_LT : Expr → Expr → V → V;
  visit_LE : Expr → Expr → V → V;
  visit_GT : Expr → Expr → V → V;
  visit_GE : Expr → Expr → V → V;
  visit_And : Expr → Expr → V → V;
  visit_Or : Expr → Expr → V → V;
  visit_Not : Expr → V → V;
  visit_Select : Expr → Expr → Expr → V → V;
  visit_Load : Type_ → string → Expr → V → V;
  visit_Ramp : Expr → Expr → Z → V → V;
  visit_Call : Type_ → string → list Expr → CallType → V → V;
  visit_Let : string → Expr → Expr → V → V;
  visit_LetStmt : string → Expr → Stmt → V → V;
  visit_PrintStmt : string → list Expr → V → V;
  visit_AssertStmt : Expr → string → V → V;
  visit_Pipeline : string → Stmt → Stmt → Stmt → V → V;
  visit_For : string → Expr → Expr → ForType → Stmt → V → V;
  visit_Store : string → Expr → Expr → V → V;
  visit_Provide : string → Expr → list Expr → V → V;
  visit_Allocate : string → Type_ → Expr → Stmt → V → V;
  visit_Realize : string → Type_ → list (Expr * Expr) → Stmt → V → V;
  visit_Block : Stmt → Stmt → V → V
}.
Arguments visit_IntImm {V}. Arguments visit_FloatImm {V}.
Arguments visit_Cast {V}. Arguments visit_Var {V}.
Arguments visit_Add {V}. Arguments visit_Sub {V}.
Arguments visit_Mul {V}. Arguments visit_Div {V}.
Arguments visit_Mod {V}. Arguments visit_Min {V}.
Arguments visit_Max {V}. Arguments visit_EQ {V}.
Arguments visit_NE {V}. Arguments visit_LT {V}.
Arguments visit_LE {V}. Arguments visit_GT {V}.
Arguments visit_GE {V}. Arguments visit_And {V}.
Arguments visit_Or {V}. Arguments visit_Not {V}.
Arguments visit_Select {V}. Arguments visit_Load {V}.
Arguments visit_Ramp {V}. Arguments visit_Call {V}.
Arguments visit_Let {V}. Arguments visit_LetStmt {V}.
Arguments visit_PrintStmt {V}. Arguments visit_AssertStmt {V}.
Arguments visit_Pipeline {V}. Arguments visit_For {V}.
Arguments visit_Store {V}. Arguments visit_Provide {V}.
Arguments visit_Allocate {V}. Arguments visit_Realize {V}.
Arguments visit_Block {V}.

(** The virtual [IRNode::accept].  Every struct [X] of the file derives
    from [ExprNode<X>] or [StmtNode<X>], whose
    [accept] passes [this], cast to a pointer to a const [X], to
    [v->visit]. *)
Definition IRNode_accept {V} (v : IRVisitor V) (d : Node) : V → V :=
  match d with
  | IntImm x => visit_IntImm v x
  | FloatImm x => visit_FloatImm v x
  | Cast ty x => visit_Cast v ty x
  | Var ty x => visit_Var v ty x
  | Add a b => visit_Add v a b
  | Sub a b => visit_Sub v a b
  | Mul a b => visit_Mul v a b
  | Div a b => visit_Div v a b
  | Mod a b => visit_Mod v a b
  | Min a b => visit_Min v a b
  | Max a b => visit_Max v a b
  | EQ a b => visit_EQ v a b
  | NE a b => visit_NE v a b
  | LT a b => visit_LT v a b
  | LE a b => visit_LE v a b
  | GT a b => visit_GT v a b
  | GE a b => visit_GE v a b
  | And a b => visit_And v a b
  | Or a b => visit_Or v a b
  | Not a => visit_Not v a
  | Select c tv fv => visit_Select v c tv fv
  | Load ty b i => visit_Load v ty b i
  | Ramp b s w => visit_Ramp v b s w
  | Call ty b args ct => visit_Call v ty b args ct
  | Let n x b => visit_Let v n x b
  | LetStmt n x b => visit_LetStmt v n x b
  | PrintStmt p args => visit_PrintStmt v p args
  | AssertStmt c m => visit_AssertStmt v c m
  | Pipeline b p u c => visit_Pipeline v b p u c
  | For n m e f b => visit_For v n m e f b
  | Store b x i => visit_Store v b x i
  | Provide b x args => visit_Provide v b x args
  | Allocate b ty s bd => visit_Allocate v b ty s bd
  | Realize b ty bs bd => visit_Realize v b ty bs bd
  | Block f r => visit_Block v f r
  end.

(** [void IRHandle::accept(IRVisitor *v) const { node->accept(v); }]:
    the pointer is dereferenced without a test. *)
Definition IRHandle_accept {V} (v : IRVisitor V) (node : option loc)
    (σ : gmap loc IRNode) (st : V) : result V :=
  match node with
  | None => Undefined
  | Some l =>
      match σ !! l with
      | None => Undefined
      | Some n => Ok (IRNode_accept v (fields n) st)
      end
  end.

(** ** Construction *)

(** [IRHandle(const IRHandle &other) : node(other.node) { incref(); }],
    which [Expr] and [Stmt] inherit as their copy constructors. *)
Definition IRHandle_copy (other : option loc) : M (option loc) :=
  let* _ := incref other in ret other.

Definition Expr_copy (other : Expr) : M Expr :=
  let* n := IRHandle_copy (expr_node other) in ret (MkExpr n).

Definition Stmt_copy (other : Stmt) : M Stmt :=
  let* n := IRHandle_copy (stmt_node other) in ret (MkStmt n).

(** Copy construction of a [vector<Expr>], element by element. *)
Fixpoint vector_copy (a : list Expr) : M (list Expr) :=
  match a with
  | [] => ret []
  | x :: xs =>
      let* x' := Expr_copy x in
      let* xs' := vector_copy xs in
      ret (x' :: xs')
  end.

(** Copy construction of a [vector<pair<Expr, Expr> >]. *)
Fixpoint vector_pair_copy (a : list (Expr * Expr)) : M (list (Expr * Expr)) :=
  match a with
  | [] => ret []
  | x :: xs =>
      let* x1 := Expr_copy x.1 in
      let* x2 := Expr_copy x.2 in
      let* xs' := vector_pair_copy xs in
      ret ((x1, x2) :: xs')
  end.

(** [for (size_t i = 0; i < args.size(); i++) assert(args[i].defined() && msg);] *)
Fixpoint assert_args (args : list Expr) (msg : string) : M unit :=
  match args with
  | [] => ret tt
  | x :: xs =>
      let* _ := assert (defined (expr_node x)) msg in
      assert_args xs msg
  end.

Fixpoint assert_bounds (bounds : list (Expr * Expr)) (msg : string) : M unit :=
  match bounds with
  | [] => ret tt
  | x :: xs =>
      let* _ := assert (defined (expr_node x.1)) msg in
      let* _ := assert (defined (expr_node x.2)) msg in
      assert_bounds xs msg
  end.

(** The storage of a [new] expression and [IRNode() : ref_count(0)].
    The node enters the free store when its constructor has run to the
    end; a constructor that fails aborts the program. *)
Definition new (d : Node) : M loc := λ σ,
  let l := fresh (dom σ) in Ok (l, <[l := MkNode 0 d]> σ).

(** The constructors.  Each initialises the members from the parameters
    in declaration order (a handle member is copy constructed), then
    runs the body. *)

Definition new_IntImm (v : Z) : M loc := new (IntImm v).

Definition new_FloatImm (v : float_bits) : M loc := new (FloatImm v).

Definition new_Cast (ty : Type_) (v : Expr) : M loc :=
  let* value := Expr_copy v in
  let* _ := assert (defined (expr_node v)) "Cast of undefined" in
  new (Cast ty value).

Definition new_Var (ty : Type_) (n : string) : M loc := new (Var ty n).

Definition new_Add (_a _b : Expr) : M loc :=
  let* a := Expr_copy _a in
  let* b := Expr_copy _b in
  let* _ := assert (defined (expr_node a)) "Add of undefined" in
  let* _ := assert (defined (expr_node b)) "Add of undefined" in
  new (Add a b).

Definition new_Sub (_a _b : Expr) : M loc :=
  let* a := Expr_copy _a in
  let* b := Expr_copy _b in
  let* _ := assert (defined (expr_node a)) "Sub of undefined" in
  let* _ := assert (defined (expr_node b)) "Sub of undefined" in
  new (Sub a b).

Definition new_Mul (_a _b : Expr) : M loc :=
  let* a := Expr_copy _a in
  let* b := Expr_copy _b in
  let* _ := assert (defined (expr_node a)) "Mul of undefined" in
  let* _ := assert (defined (expr_node b)) "Mul of undefined" in
  new (Mul a b).

Definition new_Div (_a _b : Expr) : M loc :=
  let* a := Expr_copy _a in
  let* b := Expr_copy _b in
  let* _ := assert (defined (expr_node a)) "Div of undefined" in
  let* _ := assert (defined (expr_node b)) "Div of undefined" in
  new (Div a b).

Definition new_Mod (_a _b : Expr) : M loc :=
  let* a := Expr_copy _a in
  let* b := Expr_copy _b in
  let* _ := assert (defined (expr_node a)) "Mod of undefined" in
  let* _ := assert (defined (expr_node b)) "Mod of undefined" in
  new (Mod a b).

Definition new_Min (_a _b : Expr) : M loc :=
  let* a := Expr_copy _a in
  let* b := Expr_copy _b in
  let* _ := assert (defined (expr_node a)) "Min of undefined" in
  let* _ := assert (defined (expr_node b)) "Min of undefined" in
  new (Min a b).

Definition new_Max (_a _b : Expr) : M loc :=
  let* a := Expr_copy _a in
  let* b := Expr_copy _b in
  let* _ := assert (defined (expr_node a)) "Max of undefined" in
  let* _ := assert (defined (expr_node b)) "Max of undefined" in
  new (Max a b).

Definition new_EQ (_a _b : Expr) : M loc :=
  let* a := Expr_copy _a in
  let* b := Expr_copy _b in
  let* _ := assert (defined (expr_node a)) "EQ of undefined" in
  let* _ := assert (defined (expr_node b)) "EQ of undefined" in
  new (EQ a b).

Definition new_NE (_a _b : Expr) : M loc :=
  let* a := Expr_copy _a in
  let* b := Expr_copy _b in
  let* _ := assert (defined (expr_node a)) "NE of undefined" in
  let* _ := assert (defined (expr_node b)) "NE of undefined" in
  new (NE a b).

Definition new_LT (_a _b : Expr) : M loc :=
  let* a := Expr_copy _a in
  let* b := Expr_copy _b in
  let* _ := assert (defined (expr_node a)) "LT of undefined" in
  let* _ := assert (defined (expr_node b)) "LT of undefined" in
  new (LT a b).

Definition new_LE (_a _b : Expr) : M loc :=
  let* a := Expr_copy _a in
  let* b := Expr_copy _b in
  let* _ := assert (defined (expr_node a)) "LE of undefined" in
  let* _ := assert (defined (expr_node b)) "LE of undefined" in
  new (LE a b).

Definition new_GT (_a _b : Expr) : M loc :=
  let* a := Expr_copy _a in
  let* b := Expr_copy _b in
  let* _ := assert (defined (expr_node a)) "GT of undefined" in
  let* _ := assert (defined (expr_node b)) "GT of undefined" in
  new (GT a b).

Definition new_GE (_a _b : Expr) : M loc :=
  let* a := Expr_copy _a in
  let* b := Expr_copy _b in
  let* _ := assert (defined (expr_node a)) "GE of undefined" in
  let* _ := assert (defined (expr_node b)) "GE of undefined" in
  new (GE a b).

Definition new_And (_a _b : Expr) : M loc :=
  let* a := Expr_copy _a in
  let* b := Expr_copy _b in
  let* _ := assert (defined (expr_node a)) "And of undefined" in
  let* _ := assert (defined (expr_node b)) "And of undefined" in
  new (And a b).

Definition new_Or (_a _b : Expr) : M loc :=
  let* a := Expr_copy _a in
  let* b := Expr_copy _b in
  let* _ := assert (defined (expr_node a)) "Or of undefined" in
  let* _ := assert (defined (expr_node b)) "Or of undefined" in
  new (Or a b).

Definition new_Not (_a : Expr) : M loc :=
  let* a := Expr_copy _a in
  let* _ := assert (defined (expr_node a)) "Not of undefined" in
  new (Not a).

Definition new_Select (c tv fv : Expr) : M loc :=
  let* condition := Expr_copy c in
  let* true_value := Expr_copy tv in
  let* false_value := Expr_copy fv in
  let* _ := assert (defined (expr_node condition)) "Select of undefined" in
  let* _ := assert (defined (expr_node true_value)) "Select of undefined" in
  let* _ := assert (defined (expr_node false_value)) "Select of undefined" in
  new (Select condition true_value false_value).

Definition new_Load (ty : Type_) (b : string) (i : Expr) : M loc :=
  let* index := Expr_copy i in
  let* _ := assert (defined (expr_node index)) "Load of undefined" in
  new (Load ty b index).

Definition new_Ramp (b s : Expr) (w : Z) : M loc :=
  let* base := Expr_copy b in
  let* stride := Expr_copy s in
  let* _ := assert (defined (expr_node base)) "Ramp of undefined" in
  let* _ := assert (defined (expr_node stride)) "Ramp of undefined" in
  let* _ := assert (bool_decide (w > 0)) "Ramp of width <= 0" in
  new (Ramp base stride w).

Definition new_Call (ty : Type_) (b : string) (a : list Expr) (ct : CallType) : M loc :=
  let* args := vector_copy a in
  let* _ := assert_args args "Call of undefined" in
  new (Call ty b args ct).

Definition new_Let (n : string) (v b : Expr) : M loc :=
  let* value := Expr_copy v in
  let* body := Expr_copy b in
  let* _ := assert (defined (expr_node value)) "Let of undefined" in
  let* _ := assert (defined (expr_node body)) "Let of undefined" in
  new (Let n value body).

Definition new_LetStmt (n : string) (v : Expr) (b : Stmt) : M loc :=
  let* value := Expr_copy v in
  let* body := Stmt_copy b in
  let* _ := assert (defined (expr_node value)) "LetStmt of undefined" in
  let* _ := assert (defined (stmt_node body)) "LetStmt of undefined" in
  new (LetStmt n value body).

Definition new_PrintStmt (p : string) (a : list Expr) : M loc :=
  let* args := vector_copy a in
  let* _ := assert_args args "PrintStmt of undefined" in
  new (PrintStmt p args).

Definition new_AssertStmt (c : Expr) (m : string) : M loc :=
  let* condition := Expr_copy c in
  let* _ := assert (defined (expr_node condition)) "AssertStmt of undefined" in
  new (AssertStmt condition m).

Definition new_Pipeline (b : string) (p u c : Stmt) : M loc :=
  let* produce := Stmt_copy p in
  let* update := Stmt_copy u in
  let* consume := Stmt_copy c in
  let* _ := assert (defined (stmt_node produce)) "Pipeline of undefined" in
  (* update is allowed to be null *)
  let* _ := assert (defined (stmt_node consume)) "Pipeline of undefined" in
  new (Pipeline b produce update consume).

Definition new_For (n : string) (m e : Expr) (f : ForType) (b : Stmt) : M loc :=
  let* min := Expr_copy m in
  let* extent := Expr_copy e in
  let* body := Stmt_copy b in
  let* _ := assert (defined (expr_node min)) "For of undefined" in
  let* _ := assert (defined (expr_node extent)) "For of undefined" in
  let* _ := assert (defined (stmt_node body)) "For of undefined" in
  new (For n min extent f body).

Definition new_Store (b : string) (v i : Expr) : M loc :=
  let* value := Expr_copy v in
  let* index := Expr_copy i in
  let* _ := assert (defined (expr_node value)) "Store of undefined" in
  let* _ := assert (defined (expr_node index)) "Store of undefined" in
  new (Store b value index).

Definition new_Provide (b : string) (v : Expr) (a : list Expr) : M loc :=
  let* value := Expr_copy v in
  let* args := vector_copy a in
  let* _ := assert (defined (expr_node value)) "Provide of undefined" in
  let* _ := assert_args args "Provide of undefined" in
  new (Provide b value args).

Definition new_Allocate (buf : string) (ty : Type_) (s : Expr) (bod : Stmt) : M loc :=
  let* size := Expr_copy s in
  let* body := Stmt_copy bod in
  let* _ := assert (defined (expr_node size)) "Allocate of undefined" in
  let* _ := assert (defined (stmt_node body)) "Allocate of undefined" in
  new (Allocate buf ty size body).

Definition new_Realize (buf : string) (ty : Type_) (bou : list (Expr * Expr))
    (bod : Stmt) : M loc :=
  let* bounds := vector_pair_copy bou in
  let* body := Stmt_copy bod in
  let* _ := assert_bounds bounds "Realize of undefined" in
  let* _ := assert (defined (stmt_node body)) "Realize of undefined" in
  new (Realize buf ty bounds body).

Definition new_Block (f r : Stmt) : M loc :=
  let* first := Stmt_copy f in
  let* rest := Stmt_copy r in
  let* _ := assert (defined (stmt_node first)) "Block of undefined" in
  (* rest is allowed to be null *)
  new (Block first rest).

(** A call of one of the constructors: the struct and the arguments. *)
Inductive New :=
| NewIntImm (v : Z)
| NewFloatImm (v : float_bits)
| NewCast (ty : Type_) (v : Expr)
| NewVar (ty : Type_) (n : string)
| NewAdd (_a _b : Expr)
| NewSub (_a _b : Expr)
| NewMul (_a _b : Expr)
| NewDiv (_a _b : Expr)
| NewMod (_a _b : Expr)
| NewMin (_a _b : Expr)
| NewMax (_a _b : Expr)
| NewEQ (_a _b : Expr)
| NewNE (_a _b : Expr)
| NewLT (_a _b : Expr)
| NewLE (_a _b : Expr)
| NewGT (_a _b : Expr)
| NewGE (_a _b : Expr)
| NewAnd (_a _b : Expr)
| NewOr (_a _b : Expr)
| NewNot (_a : Expr)
| NewSelect (c tv fv : Expr)
| NewLoad (ty : Type_) (b : string) (i : Expr)
| NewRamp (b s : Expr) (w : Z)
| NewCall (ty : Type_) (b : string) (a : list Expr) (ct : CallType)
| NewLet (n : string) (v b : Expr)
| NewLetStmt (n : string) (v : Expr) (b : Stmt)
| NewPrintStmt (p : string) (a : list Expr)
| NewAssertStmt (c : Expr) (m : string)
| NewPipeline (b : string) (p u c : Stmt)
| NewFor (n : string) (m e : Expr) (f : ForType) (b : Stmt)
| NewStore (b : string) (v i : Expr)
| NewProvide (b : string) (v : Expr) (a : list Expr)
| NewAllocate (buf : string) (ty : Type_) (s : Expr) (bod : Stmt)
| NewRealize (buf : string) (ty : Type_) (bou : list (Expr * Expr)) (bod : Stmt)
| NewBlock (f r : Stmt).

Definition construct (c : New) : M loc :=
  match c with
  | NewIntImm v => new_IntImm v
  | NewFloatImm v => new_FloatImm v
  | NewCast ty v => new_Cast ty v
  | NewVar ty n => new_Var ty n
  | NewAdd a b => new_Add a b
  | NewSub a b => new_Sub a b
  | NewMul a b => new_Mul a b
  | NewDiv a b => new_Div a b
  | NewMod a b => new_Mod a b
  | NewMin a b => new_Min a b
  | NewMax a b => new_Max a b
  | NewEQ a b => new_EQ a b
  | NewNE a b => new_NE a b
  | NewLT a b => new_LT a b
  | NewLE a b => new_LE a b
  | NewGT a b => new_GT a b
  | NewGE a b => new_GE a b
  | NewAnd a b => new_And a b
  | NewOr a b => new_Or a b
  | NewNot a => new_Not a
  | NewSelect c tv fv => new_Select c tv fv
  | NewLoad ty b i => new_Load ty b i
  | NewRamp b s w => new_Ramp b s w
  | NewCall ty b a ct => new_Call ty b a ct
  | NewLet n v b => new_Let n v b
  | NewLetStmt n v b => new_LetStmt n v b
  | NewPrintStmt p a => new_PrintStmt p a
  | NewAssertStmt c m => new_AssertStmt c m
  | NewPipeline b p u c => new_Pipeline b p u c
  | NewFor n m e f b => new_For n m e f b
  | NewStore b v i => new_Store b v i
  | NewProvide b v a => new_Provide b v a
  | NewAllocate buf ty s bod => new_Allocate buf ty s bod
  | NewRealize buf ty bou bod => new_Realize buf ty bou bod
  | NewBlock f r => new_Block f r
  end.

(** ** Handle objects held by client code *)

(** The free store and the handle objects in scope, by variable name. *)
Record state := MkState {
  heap : gmap loc IRNode;
  vars : gmap string (option loc)
}.

(** Nested destructor calls are bounded by the number of nodes: every
    nested call deletes another node. *)
Definition enough (σ : gmap loc IRNode) : nat := S (size σ).

(** [IRHandle() : node(NULL) {}] *)
Definition IRHandle_ctor (this : string) (s : state) : result state :=
  Ok (MkState (heap s) (<[this := None]> (vars s))).

(** [IRHandle(const IRNode *n) : node(n) { incref(); }], through
    [Expr(const BaseExprNode *n)] or [Stmt(const BaseStmtNode *n)]. *)
Definition IRHandle_ctor_node (this : string) (n : option loc) (s : state)
    : result state :=
  let? r := incref n (heap s) in
  Ok (MkState r.2 (<[this := n]> (vars s))).

(** A handle object that a [const IRHandle &] can be bound to: one that
    client code holds, by its name, or the [i]-th handle member of the
    node at [l] (as in [op->a] inside a visitor, or [op->args[i]]). *)
Inductive place :=
| InScope (x : string)
| Member (l : loc) (i : nat).

Global Instance place_eq_dec : EqDecision place.
Proof. solve_decision. Defined.

(** [other.node]: the pointer held by the handle object at [other].  A
    handle member is storage of its node: it can be read only while
    the node is allocated. *)
Definition read_node (s : state) (other : place) : result (option loc) :=
  match other with
  | InScope x =>
      match vars s !! x with
      | Some n => Ok n
      | None => Undefined
      end
  | Member l i =>
      match heap s !! l with
      | Some n =>
          match members (fields n) !! i with
          | Some h => Ok h
          | None => Undefined
          end
      | None => Undefined
      end
  end.

(** [IRHandle(const IRHandle &other) : node(other.node) { incref(); }] *)
Definition IRHandle_ctor_copy (this : string) (other : place) (s : state)
    : result state :=
  let? n := read_node s other in IRHandle_ctor_node this n s.

(** [IRHandle &operator=(const IRHandle &other)]:
    [decref(); node = other.node; incref();].  [other] is a reference:
    it is read after [decref] has run, from the state [decref] has left
    behind. *)
Definition IRHandle_assign (this : string) (other : place) (s : state)
    : result state :=
  match vars s !! this with
  | None => Undefined
  | Some node =>
      let? r := decref (enough (heap s)) node (heap s) in
      let s1 := MkState r.2 (<[this := r.1]> (vars s)) in
      let? n := read_node s1 other in
      let? r' := incref n (heap s1) in
      Ok (MkState r'.2 (<[this := n]> (vars s1)))
  end.

(** [~IRHandle() { decref(); }]; the handle object is gone afterwards. *)
Definition IRHandle_dtor (this : string) (s : state) : result state :=
  match vars s !! this with
  | None => Undefined
  | Some node =>
      let? r := decref (enough (heap s)) node (heap s) in
      Ok (MkState r.2 (delete this (vars s)))
  end.

(** ** What the claims speak about *)

(** The node a constructor call leaves behind when it succeeds: every
    member holds the value of the parameter it was initialised from. *)
Definition node_of (c : New) : Node :=
  match c with
  | NewIntImm v => IntImm v
  | NewFloatImm v => FloatImm v
  | NewCast ty v => Cast ty v
  | NewVar ty n => Var ty n
  | NewAdd a b => Add a b
  | NewSub a b => Sub a b
  | NewMul a b => Mul a b
  | NewDiv a b => Div a b
  | NewMod a b => Mod a b
  | NewMin a b => Min a b
  | NewMax a b => Max a b
  | NewEQ a b => EQ a b
  | NewNE a b => NE a b
  | NewLT a b => LT a b
  | NewLE a b => LE a b
  | NewGT a b => GT a b
  | NewGE a b => GE a b
  | NewAnd a b => And a b
  | NewOr a b => Or a b
  | NewNot a => Not a
  | NewSelect c tv fv => Select c tv fv
  | NewLoad ty b i => Load ty b i
  | NewRamp b s w => Ramp b s w
  | NewCall ty b a ct => Call ty b a ct
  | NewLet n v b => Let n v b
  | NewLetStmt n v b => LetStmt n v b
  | NewPrintStmt p a => PrintStmt p a
  | NewAssertStmt c m => AssertStmt c m
  | NewPipeline b p u c => Pipeline b p u c
  | NewFor n m e f b => For n m e f b
  | NewStore b v i => Store b v i
  | NewProvide b v a => Provide b v a
  | NewAllocate buf ty s bod => Allocate buf ty s bod
  | NewRealize buf ty bou bod => Realize buf ty bou bod
  | NewBlock f r => Block f r
  end.

(** The kinds of the catalogue, which also name the visitor's
    operations. *)
Inductive Kind :=
| KIntImm | KFloatImm | KCast | KVar | KAdd | KSub | KMul | KDiv | KMod
| KMin | KMax | KEQ | KNE | KLT | KLE | KGT | KGE | KAnd | KOr | KNot
| KSelect | KLoad | KRamp | KCall | KLet | KLetStmt | KPrintStmt
| KAssertStmt | KPipeline | KFor | KStore | KProvide | KAllocate
| KRealize | KBlock.

Definition all_kinds : list Kind :=
  [KIntImm; KFloatImm; KCast; KVar; KAdd; KSub; KMul; KDiv; KMod;
   KMin; KMax; KEQ; KNE; KLT; KLE; KGT; KGE; KAnd; KOr; KNot;
   KSelect; KLoad; KRamp; KCall; KLet; KLetStmt; KPrintStmt;
   KAssertStmt; KPipeline; KFor; KStore; KProvide; KAllocate;
   KRealize; KBlock].

(** The struct a constructor call names. *)
Definition kind_of_call (c : New) : Kind :=
  match c with
  | NewIntImm _ => KIntImm | NewFloatImm _ => KFloatImm
  | NewCast _ _ => KCast | NewVar _ _ => KVar
  | NewAdd _ _ => KAdd | NewSub _ _ => KSub | NewMul _ _ => KMul
  | NewDiv _ _ => KDiv | NewMod _ _ => KMod | NewMin _ _ => KMin
  | NewMax _ _ => KMax | NewEQ _ _ => KEQ | NewNE _ _ => KNE
  | NewLT _ _ => KLT | NewLE _ _ => KLE | NewGT _ _ => KGT
  | NewGE _ _ => KGE | NewAnd _ _ => KAnd | NewOr _ _ => KOr
  | NewNot _ => KNot | NewSelect _ _ _ => KSelect
  | NewLoad _ _ _ => KLoad | NewRamp _ _ _ => KRamp
  | NewCall _ _ _ _ => KCall | NewLet _ _ _ => KLet
  | NewLetStmt _ _ _ => KLetStmt | NewPrintStmt _ _ => KPrintStmt
  | NewAssertStmt _ _ => KAssertStmt | NewPipeline _ _ _ _ => KPipeline
  | NewFor _ _ _ _ _ => KFor | NewStore _ _ _ => KStore
  | NewProvide _ _ _ => KProvide | NewAllocate _ _ _ _ => KAllocate
  | NewRealize _ _ _ _ => KRealize | NewBlock _ _ => KBlock
  end.

(** A visitor that records which of its operations fired, in order. *)
Definition recorder : IRVisitor (list Kind) := {|
  visit_IntImm _ log := log ++ [KIntImm];
  visit_FloatImm _ log := log ++ [KFloatImm];
  visit_Cast _ _ log := log ++ [KCast];
  visit_Var _ _ log := log ++ [KVar];
  visit_Add _ _ log := log ++ [KAdd];
  visit_Sub _ _ log := log ++ [KSub];
  visit_Mul _ _ log := log ++ [KMul];
  visit_Div _ _ log := log ++ [KDiv];
  visit_Mod _ _ log := log ++ [KMod];
  visit_Min _ _ log := log ++ [KMin];
  visit_Max _ _ log := log ++ [KMax];
  visit_EQ _ _ log := log ++ [KEQ];
  visit_NE _ _ log := log ++ [KNE];
  visit_LT _ _ log := log ++ [KLT];
  visit_LE _ _ log := log ++ [KLE];
  visit_GT _ _ log := log ++ [KGT];
  visit_GE _ _ log := log ++ [KGE];
  visit_And _ _ log := log ++ [KAnd];
  visit_Or _ _ log := log ++ [KOr];
  visit_Not _ log := log ++ [KNot];
  visit_Select _ _ _ log := log ++ [KSelect];
  visit_Load _ _ _ log := log ++ [KLoad];
  visit_Ramp _ _ _ log := log ++ [KRamp];
  visit_Call _ _ _ _ log := log ++ [KCall];
  visit_Let _ _ _ log := log ++ [KLet];
  visit_LetStmt _ _ _ log := log ++ [KLetStmt];
  visit_PrintStmt _ _ log := log ++ [KPrintStmt];
  visit_AssertStmt _ _ log := log ++ [KAssertStmt];
  visit_Pipeline _ _ _ _ log := log ++ [KPipeline];
  visit_For _ _ _ _ _ log := log ++ [KFor];
  visit_Store _ _ _ log := log ++ [KStore];
  visit_Provide _ _ _ log := log ++ [KProvide];
  visit_Allocate _ _ _ _ log := log ++ [KAllocate];
  visit_Realize _ _ _ _ log := log ++ [KRealize];
  visit_Block _ _ log := log ++ [KBlock]
|}.

(** The children the catalogue requires to be present, per constructor
    call (this list follows the specification, not the code). *)
Definition spec_required (c : New) : list (option loc) :=
  match c with
  | NewIntImm _ | NewFloatImm _ | NewVar _ _ => []
  | NewCast _ v => [expr_node v]
  | NewAdd a b | NewSub a b | NewMul a b | NewDiv a b | NewMod a b
  | NewMin a b | NewMax a b | NewEQ a b | NewNE a b | NewLT a b
  | NewLE a b | NewGT a b | NewGE a b | NewAnd a b | NewOr a b =>
      [expr_node a; expr_node b]
  | NewNot a => [expr_node a]
  | NewSelect c tv fv => [expr_node c; expr_node tv; expr_node fv]
  | NewLoad _ _ i => [expr_node i]
  | NewRamp b s _ => [expr_node b; expr_node s]
  | NewCall _ _ a _ => expr_node <$> a
  | NewLet _ v b => [expr_node v; expr_node b]
  | NewLetStmt _ v b => [expr_node v; stmt_node b]
  | NewPrintStmt _ a => expr_node <$> a
  | NewAssertStmt c _ => [expr_node c]
  | NewPipeline _ p _ c => [stmt_node p; stmt_node c]
  | NewFor _ m e _ b => [expr_node m; expr_node e; stmt_node b]
  | NewStore _ v i => [expr_node v; expr_node i]
  | NewProvide _ v a => expr_node v :: (expr_node <$> a)
  | NewAllocate _ _ s bod => [expr_node s; stmt_node bod]
  | NewRealize _ _ bou bod => (bou ≫= pair_handles) ++ [stmt_node bod]
  | NewBlock f _ => [stmt_node f]
  end.

(** The numeric bound of the catalogue: a [Ramp] has a positive lane
    count. *)
Definition spec_bound (c : New) : bool :=
  match c with
  | NewRamp _ _ w => bool_decide (0 < w)
  | _ => true
  end.

(** A handle a program may pass around: empty, or the address of a node
    that is allocated. *)
Definition live_in (D : gset loc) (h : option loc) : Prop :=
  match h with
  | None => True
  | Some l => l ∈ D
  end.

(** ** The share-count invariant *)

(** The nodes a list of handles refers to, with multiplicity. *)
Definition handle_refs (hs : list (option loc)) : gmultiset loc :=
  list_to_set_disj (omap id hs).

(** The references a node holds through its members. *)
Definition node_refs (n : IRNode) : gmultiset loc :=
  handle_refs (members (fields n)).

(** All references held by the values of a map. *)
Definition refs_of {K} `{Countable K} {A} (f : A → gmultiset loc)
    (m : gmap K A) : gmultiset loc :=
  map_fold (λ _ a acc, f a ⊎ acc) ∅ m.

Definition heap_refs (σ : gmap loc IRNode) : gmultiset loc :=
  refs_of node_refs σ.

Definition var_refs (vs : gmap string (option loc)) : gmultiset loc :=
  refs_of (λ h, handle_refs [h]) vs.

(** A referenced node is allocated, and its [ref_count] covers the
    references to it without leaving the range of [int]. *)
Definition count_ok (σ : gmap loc IRNode) (X : gmultiset loc) (c : loc) : Prop :=
  match σ !! c with
  | Some n => Z.of_nat (multiplicity c X) ≤ ref_count n ≤ INT_MAX
  | None => False
  end.

Global Instance count_ok_dec σ X c : Decision (count_ok σ X c).
Proof. unfold count_ok. destruct (σ !! c); apply _. Defined.

(** Every reference held by a node of [σ] or listed in [R] is accounted
    for in the [ref_count] of its target. *)
Definition counted (σ : gmap loc IRNode) (R : gmultiset loc) : Prop :=
  set_Forall (count_ok σ (heap_refs σ ⊎ R)) (dom (heap_refs σ ⊎ R)).

(** A state in which the handle objects in scope and the handle members
    of the nodes are all counted. *)
Definition wf_state (s : state) : Prop :=
  counted (heap s) (var_refs (vars s)).

Global Instance counted_dec σ R : Decision (counted σ R).
Proof. unfold counted. apply _. Defined.

Global Instance wf_state_dec s : Decision (wf_state s).
Proof. unfold wf_state. apply _. Defined.

(** Every node of [σ'] was already in [σ], with the same members. *)
Definition same_fields (σ σ' : gmap loc IRNode) : Prop :=
  ∀ l n', σ' !! l = Some n' → ∃ n, σ !! l = Some n ∧ fields n = fields n'.

(** The member initialisers of a constructor taken together: one
    [incref] per handle member, in declaration order. *)
Fixpoint copy_handles (hs : list (option loc)) : M unit :=
  match hs with
  | [] => ret tt
  | h :: hs' => let* _ := incref h in copy_handles hs'
  end.

(** Room in the [int] for the references a constructor is about to add:
    the nodes that [hs] refers to have a count that is not negative and
    stays in range when [length hs] is added. *)
Definition headroom (σ : gmap loc IRNode) (hs : list (option loc)) : Prop :=
  ∀ l n, Some l ∈ hs → σ !! l = Some n →
    0 ≤ ref_count n ∧ ref_count n + Z.of_nat (length hs) ≤ INT_MAX.

(** Every node of [σ'] was already in [σ], with the same members and a
    [ref_count] that is not larger. *)
Definition released (σ σ' : gmap loc IRNode) : Prop :=
  ∀ l n', σ' !! l = Some n' →
    ∃ n, σ !! l = Some n ∧ fields n = fields n' ∧ ref_count n' ≤ ref_count n.

(** What one [decref] of a counted reference does, with [fuel] for the
    nested destructor calls.  [Zm] is storage that nothing counted
    refers to, such as the nodes whose destructors are running: the
    call leaves it alone. *)
Definition decref_spec (fuel : nat) : Prop :=
  ∀ (L : gmap loc IRNode) (R : gmultiset loc) c n,
    counted L ({[+ c +]} ⊎ R) → L !! c = Some n → (size L ≤ fuel)%nat →
    ∃ L' node',
      counted L' R ∧ dom L' ⊆ dom L ∧ released L L' ∧
      (ref_count n = 1 → node' = None ∧ L' !! c = None) ∧
      (ref_count n ≠ 1 →
         node' = Some c ∧ L' = <[c := set_ref_count (ref_count n - 1) n]> L) ∧
      ∀ Zm : gmap loc IRNode, Zm ##ₘ L →
        decref fuel (Some c) (L ∪ Zm) = Ok (node', L' ∪ Zm).

(** ** Client programs over handle objects *)




(** [Expr h(new IntImm(5));] *)
Definition five_state : state :=
  MkState {[1%positive := MkNode 1 (IntImm 5)]} {["h" := Some 1%positive]}.

(** [Expr e(new Add(Expr(new IntImm(1)), Expr(new IntImm(2))));], after
    the temporaries are gone. *)
Definition add_state : state :=
  MkState {[1%positive := MkNode 1 (IntImm 1);
            2%positive := MkNode 1 (IntImm 2);
            3%positive := MkNode 1 (Add (MkExpr (Some 1%positive))
                                        (MkExpr (Some 2%positive)))]}
          {["e" := Some 3%positive]}.

(** An expression node and a statement node to build on. *)
Definition sample_heap : gmap loc IRNode :=
  {[1%positive := MkNode 1 (IntImm 0);
    2%positive := MkNode 1 (PrintStmt "" [])]}.

Definition sample_Expr : Expr := MkExpr (Some 1%positive).
Definition sample_Stmt : Stmt := MkStmt (Some 2%positive).

(** ** Exact counts and reachability *)

(** Every reference goes to an allocated node, and the [ref_count] of
    every allocated node is the number of references to it, at least
    one and within the [int]. *)
Definition exact (σ : gmap loc IRNode) (R : gmultiset loc) : Prop :=
  set_Forall (λ c, is_Some (σ !! c)) (dom (heap_refs σ ⊎ R)) ∧
  map_Forall (λ c n,
      ref_count n = Z.of_nat (multiplicity c (heap_refs σ ⊎ R)) ∧
      1 ≤ ref_count n ≤ INT_MAX) σ.

Global Instance exact_dec σ R : Decision (exact σ R).
Proof. unfold exact. apply _. Defined.

(** [rank] goes down along every handle member: no node is its own
    descendant. *)
Definition ranked (rank : loc → nat) (σ : gmap loc IRNode) : Prop :=
  map_Forall (λ p n, set_Forall (λ c, (rank c < rank p)%nat) (dom (node_refs n))) σ.

Global Instance ranked_dec rank σ : Decision (ranked rank σ).
Proof. unfold ranked. apply _. Defined.

Definition acyclic (σ : gmap loc IRNode) : Prop := ∃ rank, ranked rank σ.

(** The nodes that the references [R] lead to, directly or through the
    handle members of other such nodes. *)
Inductive reachable (σ : gmap loc IRNode) (R : gmultiset loc) : loc → Prop :=
| reach_root l : l ∈ R → reachable σ R l
| reach_member p n c :
    reachable σ R p → σ !! p = Some n → c ∈ node_refs n → reachable σ R c.

(** A state as programs keep it: the counts are exact for the handle
    objects in scope and the handle members, and no node refers back to
    itself. *)
Definition tidy (s : state) : Prop :=
  exact (heap s) (var_refs (vars s)) ∧ acyclic (heap s).

(** What one [decref] does to exact counts. *)
Definition decref_exact_spec (fuel : nat) : Prop :=
  ∀ (L : gmap loc IRNode) (R : gmultiset loc) c n,
    exact L ({[+ c +]} ⊎ R) → L !! c = Some n → (size L ≤ fuel)%nat →
    ∃ L' node',
      exact L' R ∧ dom L' ⊆ dom L ∧ released L L' ∧
      (ref_count n = 1 → node' = None ∧ L' !! c = None) ∧
      (ref_count n ≠ 1 →
         node' = Some c ∧ L' = <[c := set_ref_count (ref_count n - 1) n]> L) ∧
      ∀ Zm : gmap loc IRNode, Zm ##ₘ L →
        decref fuel (Some c) (L ∪ Zm) = Ok (node', L' ∪ Zm).

(** The nodes of [σ] that are not allocated in [σ'] any more. *)
Definition deallocated (σ σ' : gmap loc IRNode) : gmap loc IRNode :=
  filter (λ kn, σ' !! kn.1 = None) σ.

(** [σ'] holds the nodes of [σ] after the references [X] were dropped
    and the references [Y] added: a node has lost one count for each
    reference to it in [X] and for each handle member of a deallocated
    node that referred to it, and has gained one for each reference to
    it in [Y]; it is deallocated exactly if that leaves the count zero,
    and is there with this count and its members otherwise. *)
Definition recounted (X Y : gmultiset loc) (σ σ' : gmap loc IRNode) : Prop :=
  ∀ x n, σ !! x = Some n →
    let k := ref_count n
             - Z.of_nat (multiplicity x (X ⊎ heap_refs (deallocated σ σ')))
             + Z.of_nat (multiplicity x Y) in
    σ' !! x = if decide (k = 0) then None else Some (set_ref_count k n).

(** [Expr a(new IntImm(1)); Expr e(new Add(a, Expr(new IntImm(2))));]:
    the node held by [a] is also a child of the node held by [e]. *)
Definition shared_state : state :=
  MkState {[1%positive := MkNode 2 (IntImm 1);
            2%positive := MkNode 1 (IntImm 2);
            3%positive := MkNode 1 (Add (MkExpr (Some 1%positive))
                                        (MkExpr (Some 2%positive)))]}
          {["a" := Some 1%positive; "e" := Some 3%positive]}.

(** The name of the struct a constructor call builds, as the assertion
    messages spell it. *)
Definition struct_name (c : New) : string :=
  match c with
  | NewIntImm _ => "IntImm" | NewFloatImm _ => "FloatImm"
  | NewCast _ _ => "Cast" | NewVar _ _ => "Var"
  | NewAdd _ _ => "Add" | NewSub _ _ => "Sub" | NewMul _ _ => "Mul"
  | NewDiv _ _ => "Div" | NewMod _ _ => "Mod" | NewMin _ _ => "Min"
  | NewMax _ _ => "Max" | NewEQ _ _ => "EQ" | NewNE _ _ => "NE"
  | NewLT _ _ => "LT" | NewLE _ _ => "LE" | NewGT _ _ => "GT"
  | NewGE _ _ => "GE" | NewAnd _ _ => "And" | NewOr _ _ => "Or"
  | NewNot _ => "Not" | NewSelect _ _ _ => "Select"
  | NewLoad _ _ _ => "Load" | NewRamp _ _ _ => "Ramp"
  | NewCall _ _ _ _ => "Call" | NewLet _ _ _ => "Let"
  | NewLetStmt _ _ _ => "LetStmt" | NewPrintStmt _ _ => "PrintStmt"
  | NewAssertStmt _ _ => "AssertStmt" | NewPipeline _ _ _ _ => "Pipeline"
  | NewFor _ _ _ _ _ => "For" | NewStore _ _ _ => "Store"
  | NewProvide _ _ _ => "Provide" | NewAllocate _ _ _ _ => "Allocate"
  | NewRealize _ _ _ _ => "Realize" | NewBlock _ _ => "Block"
  end.

(** * Proofs *)

(** ** Constructors *)

Lemma bind_Ok {A B} (m : M A) (k : A → M B) σ a σ' :
  m σ = Ok (a, σ') → bind m k σ = k a σ'.
Proof. unfold bind. by intros ->. Qed.

Lemma bind_inv {A B} (m : M A) (k : A → M B) σ r :
  bind m k σ = Ok r → ∃ a σ', m σ = Ok (a, σ') ∧ k a σ' = Ok r.
Proof.
  unfold bind. destruct (m σ) as [[a σ']| | |]; simpl; try done.
  intros H. by exists a, σ'.
Qed.

Lemma incref_live D h σ :
  dom σ = D → live_in D h → ∃ σ', incref h σ = Ok (tt, σ') ∧ dom σ' = D.
Proof.
  intros <- Hl. destruct h as [l|]; simpl in *; [|by eexists].
  apply elem_of_dom in Hl as [n Hn]. rewrite Hn. eexists; split; [reflexivity|].
  rewrite dom_insert_L. apply elem_of_dom_2 in Hn. set_solver.
Qed.

Lemma incref_inv h σ r :
  incref h σ = Ok r → live_in (dom σ) h ∧ dom r.2 = dom σ.
Proof.
  destruct h as [l|]; simpl.
  - destruct (σ !! l) as [n|] eqn:Hn; [|done]. intros [= <-]; simpl.
    apply elem_of_dom_2 in Hn. split; [done|]. rewrite dom_insert_L. set_solver.
  - by intros [= <-].
Qed.

Lemma Expr_copy_live D x σ :
  dom σ = D → live_in D (expr_node x) →
  ∃ σ', Expr_copy x σ = Ok (x, σ') ∧ dom σ' = D.
Proof.
  destruct x as [h]. simpl. intros HD Hl.
  destruct (incref_live D h σ HD Hl) as (σ' & E & HD').
  exists σ'. split; [|done].
  unfold Expr_copy, IRHandle_copy, bind, ret. cbv beta. simpl. by rewrite E.
Qed.

Lemma Stmt_copy_live D x σ :
  dom σ = D → live_in D (stmt_node x) →
  ∃ σ', Stmt_copy x σ = Ok (x, σ') ∧ dom σ' = D.
Proof.
  destruct x as [h]. simpl. intros HD Hl.
  destruct (incref_live D h σ HD Hl) as (σ' & E & HD').
  exists σ'. split; [|done].
  unfold Stmt_copy, IRHandle_copy, bind, ret. cbv beta. simpl. by rewrite E.
Qed.

Lemma Expr_copy_inv x σ r :
  Expr_copy x σ = Ok r →
  r.1 = x ∧ live_in (dom σ) (expr_node x) ∧ dom r.2 = dom σ.
Proof.
  unfold Expr_copy, IRHandle_copy, bind, ret. cbv beta.
  destruct (incref (expr_node x) σ) as [[[] σ']| | |] eqn:E; simpl; try done.
  intros [= <-]. apply incref_inv in E as [? ?]. by destruct x.
Qed.

Lemma Stmt_copy_inv x σ r :
  Stmt_copy x σ = Ok r →
  r.1 = x ∧ live_in (dom σ) (stmt_node x) ∧ dom r.2 = dom σ.
Proof.
  unfold Stmt_copy, IRHandle_copy, bind, ret. cbv beta.
  destruct (incref (stmt_node x) σ) as [[[] σ']| | |] eqn:E; simpl; try done.
  intros [= <-]. apply incref_inv in E as [? ?]. by destruct x.
Qed.

Lemma vector_copy_live D a σ :
  dom σ = D → Forall (live_in D) (expr_node <$> a) →
  ∃ σ', vector_copy a σ = Ok (a, σ') ∧ dom σ' = D.
Proof.
  revert σ. induction a as [|x a IH]; intros σ HD Hl; simpl.
  - by exists σ.
  - apply Forall_cons in Hl as [Hx Ha].
    destruct (Expr_copy_live D x σ HD Hx) as (σ1 & E1 & HD1).
    destruct (IH σ1 HD1 Ha) as (σ2 & E2 & HD2).
    exists σ2. split; [|done].
    rewrite (bind_Ok _ _ _ _ _ E1), (bind_Ok _ _ _ _ _ E2). done.
Qed.

Lemma vector_copy_inv a σ r :
  vector_copy a σ = Ok r →
  r.1 = a ∧ Forall (live_in (dom σ)) (expr_node <$> a) ∧ dom r.2 = dom σ.
Proof.
  revert σ r. induction a as [|x a IH]; intros σ r; simpl.
  - by intros [= <-].
  - intros H. apply bind_inv in H as (x' & σ1 & E1 & H).
    apply bind_inv in H as (a' & σ2 & E2 & H).
    apply Expr_copy_inv in E1 as (E1 & L1 & D1).
    apply IH in E2 as (E2 & L2 & D2). simpl in *. subst.
    injection H as <-. simpl. rewrite D1 in *. by repeat split; [constructor|].
Qed.

Lemma vector_pair_copy_live D a σ :
  dom σ = D → Forall (live_in D) (a ≫= pair_handles) →
  ∃ σ', vector_pair_copy a σ = Ok (a, σ') ∧ dom σ' = D.
Proof.
  revert σ. induction a as [|[x1 x2] a IH]; intros σ HD Hl; simpl.
  - by exists σ.
  - simpl in Hl. apply Forall_cons in Hl as [Hx1 Hl].
    apply Forall_cons in Hl as [Hx2 Ha].
    destruct (Expr_copy_live D x1 σ HD Hx1) as (σ1 & E1 & HD1).
    destruct (Expr_copy_live D x2 σ1 HD1 Hx2) as (σ2 & E2 & HD2).
    destruct (IH σ2 HD2 Ha) as (σ3 & E3 & HD3).
    exists σ3. split; [|done].
    rewrite (bind_Ok _ _ _ _ _ E1), (bind_Ok _ _ _ _ _ E2), (bind_Ok _ _ _ _ _ E3).
    done.
Qed.

Lemma vector_pair_copy_inv a σ r :
  vector_pair_copy a σ = Ok r →
  r.1 = a ∧ Forall (live_in (dom σ)) (a ≫= pair_handles) ∧ dom r.2 = dom σ.
Proof.
  revert σ r. induction a as [|[x1 x2] a IH]; intros σ r; simpl.
  - by intros [= <-].
  - intros H. apply bind_inv in H as (x1' & σ1 & E1 & H).
    apply bind_inv in H as (x2' & σ2 & E2 & H).
    apply bind_inv in H as (a' & σ3 & E3 & H).
    apply Expr_copy_inv in E1 as (E1 & L1 & D1).
    apply Expr_copy_inv in E2 as (E2 & L2 & D2).
    apply IH in E3 as (E3 & L3 & D3). simpl in *. subst.
    injection H as <-. simpl. rewrite D2, D1 in *.
    by repeat split; [repeat constructor|].
Qed.

Lemma assert_args_eq a msg σ :
  assert_args a msg σ =
    if forallb defined (expr_node <$> a) then Ok (tt, σ) else AssertFail msg.
Proof.
  induction a as [|x a IH]; simpl; [done|].
  unfold bind, assert. destruct (defined (expr_node x)); simpl; done.
Qed.

Lemma assert_bounds_eq a msg σ :
  assert_bounds a msg σ =
    if forallb defined (a ≫= pair_handles) then Ok (tt, σ) else AssertFail msg.
Proof.
  induction a as [|[x1 x2] a IH]; simpl; [done|].
  unfold bind, assert.
  destruct (defined (expr_node x1)); simpl; [|done].
  destruct (defined (expr_node x2)); simpl; done.
Qed.

Lemma bind_assert {B} b msg (k : unit → M B) σ :
  bind (assert b msg) k σ = if b then k tt σ else AssertFail msg.
Proof. unfold bind, assert. by destruct b. Qed.

Lemma bind_assert_args {B} a msg (k : unit → M B) σ :
  bind (assert_args a msg) k σ =
    if forallb defined (expr_node <$> a) then k tt σ else AssertFail msg.
Proof. unfold bind. rewrite assert_args_eq. by destruct (forallb _ _). Qed.

Lemma bind_assert_bounds {B} a msg (k : unit → M B) σ :
  bind (assert_bounds a msg) k σ =
    if forallb defined (a ≫= pair_handles) then k tt σ else AssertFail msg.
Proof. unfold bind. rewrite assert_bounds_eq. by destruct (forallb _ _). Qed.

Lemma forallb_app_defined (l1 l2 : list (option loc)) :
  forallb defined (l1 ++ l2) = forallb defined l1 && forallb defined l2.
Proof. apply forallb_app. Qed.

(** One member initialiser, run on handles that are live. *)
Ltac copy_step Hr :=
  match type of Hr with
  | context [bind (Expr_copy ?x) ?k ?σ] =>
      match goal with
      | HD : dom σ = ?D |- _ =>
          let σ' := fresh "σ" in
          let E := fresh "E" in
          let HD' := fresh "HD" in
          destruct (Expr_copy_live D x σ HD) as (σ' & E & HD'); [assumption|];
          rewrite (bind_Ok _ k σ x σ' E) in Hr; cbv beta in Hr; clear E HD
      end
  | context [bind (Stmt_copy ?x) ?k ?σ] =>
      match goal with
      | HD : dom σ = ?D |- _ =>
          let σ' := fresh "σ" in
          let E := fresh "E" in
          let HD' := fresh "HD" in
          destruct (Stmt_copy_live D x σ HD) as (σ' & E & HD'); [assumption|];
          rewrite (bind_Ok _ k σ x σ' E) in Hr; cbv beta in Hr; clear E HD
      end
  | context [bind (vector_copy ?x) ?k ?σ] =>
      match goal with
      | HD : dom σ = ?D |- _ =>
          let σ' := fresh "σ" in
          let E := fresh "E" in
          let HD' := fresh "HD" in
          destruct (vector_copy_live D x σ HD) as (σ' & E & HD'); [assumption|];
          rewrite (bind_Ok _ k σ x σ' E) in Hr; cbv beta in Hr; clear E HD
      end
  | context [bind (vector_pair_copy ?x) ?k ?σ] =>
      match goal with
      | HD : dom σ = ?D |- _ =>
          let σ' := fresh "σ" in
          let E := fresh "E" in
          let HD' := fresh "HD" in
          destruct (vector_pair_copy_live D x σ HD) as (σ' & E & HD'); [assumption|];
          rewrite (bind_Ok _ k σ x σ' E) in Hr; cbv beta in Hr; clear E HD
      end
  end.

Ltac split_live :=
  repeat match goal with
  | H : Forall _ (_ :: _) |- _ => apply Forall_cons in H as [? H]
  | H : Forall _ (_ ++ _) |- _ => apply Forall_app in H as [? H]
  | H : Forall _ [] |- _ => clear H
  end.

Lemma construct_live c σ :
  Forall (live_in (dom σ)) (members (node_of c)) →
  ∃ σ', dom σ' = dom σ ∧
    if forallb defined (spec_required c) && spec_bound c
    then construct c σ =
           Ok (fresh (dom σ), <[fresh (dom σ) := MkNode 0 (node_of c)]> σ')
    else ∃ msg, construct c σ = AssertFail msg.
Proof.
  intros Hl. remember (construct c σ) as r eqn:Hr.
  set (D := dom σ) in *. assert (HD : dom σ = D) by done. clearbody D.
  destruct c; simpl in Hl, Hr; split_live;
    unfold new_IntImm, new_FloatImm, new_Cast, new_Var, new_Add, new_Sub,
      new_Mul, new_Div, new_Mod, new_Min, new_Max, new_EQ, new_NE, new_LT,
      new_LE, new_GT, new_GE, new_And, new_Or, new_Not, new_Select, new_Load,
      new_Ramp, new_Call, new_Let, new_LetStmt, new_PrintStmt, new_AssertStmt,
      new_Pipeline, new_For, new_Store, new_Provide, new_Allocate, new_Realize,
      new_Block in Hr;
    repeat copy_step Hr;
    repeat (progress (rewrite ?bind_assert, ?bind_assert_args, ?bind_assert_bounds in Hr;
            cbv beta in Hr));
    unfold new in Hr; cbv beta zeta in Hr;
    match goal with
    | HD : dom ?σ' = D |- _ => rewrite HD in Hr; exists σ'; split; [done|]
    end; subst r; simpl spec_required; simpl spec_bound.

  all: simpl forallb; rewrite ?forallb_app_defined; simpl forallb.
  all: repeat match goal with
       | |- context [defined ?h] => destruct (defined h); simpl
       | |- context [forallb defined ?h] => destruct (forallb defined h); simpl
       end; try done; try by eexists.
  repeat case_bool_decide; try lia; try done; by eexists.
Qed.

(** One member initialiser that is known to have returned. *)
Ltac copy_inv H :=
  let E := fresh "E" in
  let L := fresh "L" in
  let HD := fresh "HD" in
  match type of H with
  | bind (Expr_copy _) _ _ = Ok _ =>
      apply bind_inv in H as (? & ? & E & H);
      apply Expr_copy_inv in E as (E & L & HD)
  | bind (Stmt_copy _) _ _ = Ok _ =>
      apply bind_inv in H as (? & ? & E & H);
      apply Stmt_copy_inv in E as (E & L & HD)
  | bind (vector_copy _) _ _ = Ok _ =>
      apply bind_inv in H as (? & ? & E & H);
      apply vector_copy_inv in E as (E & L & HD)
  | bind (vector_pair_copy _) _ _ = Ok _ =>
      apply bind_inv in H as (? & ? & E & H);
      apply vector_pair_copy_inv in E as (E & L & HD)
  end; simpl in E, HD; subst.

Lemma construct_Ok_live c σ r :
  construct c σ = Ok r → Forall (live_in (dom σ)) (members (node_of c)).
Proof.
  intros H.
  destruct c; simpl in *;
    unfold new_IntImm, new_FloatImm, new_Cast, new_Var, new_Add, new_Sub,
      new_Mul, new_Div, new_Mod, new_Min, new_Max, new_EQ, new_NE, new_LT,
      new_LE, new_GT, new_GE, new_And, new_Or, new_Not, new_Select, new_Load,
      new_Ramp, new_Call, new_Let, new_LetStmt, new_PrintStmt, new_AssertStmt,
      new_Pipeline, new_For, new_Store, new_Provide, new_Allocate, new_Realize,
      new_Block in H;
    repeat copy_inv H;
    repeat first [apply Forall_cons; split | apply Forall_app; split
                 | apply Forall_nil_2]; try done; congruence.
Qed.

Lemma construct_Ok c σ l σ' :
  construct c σ = Ok (l, σ') →
  forallb defined (spec_required c) = true ∧ spec_bound c = true ∧
  l = fresh (dom σ) ∧ σ' !! l = Some (MkNode 0 (node_of c)) ∧
  dom σ' = {[l]} ∪ dom σ.
Proof.
  intros H. pose proof (construct_Ok_live _ _ _ H) as Hl.
  destruct (construct_live c σ Hl) as (σ1 & HD & Hc).
  destruct (forallb defined (spec_required c) && spec_bound c) eqn:Hb.
  - apply andb_true_iff in Hb as [-> ->]. rewrite Hc in H.
    injection H as <- <-. rewrite lookup_insert_eq, dom_insert_L, HD. done.
  - destruct Hc as [msg Hc]. congruence.
Qed.


(** ** Share counts *)

Section refs_of.
Context {K : Type} `{Countable K} {A : Type} (f : A → gmultiset loc).

Lemma refs_of_empty : refs_of f (∅ : gmap K A) = ∅.
Proof. apply map_fold_empty. Qed.

Lemma refs_of_insert (m : gmap K A) i x :
  m !! i = None → refs_of f (<[i:=x]> m) = f x ⊎ refs_of f m.
Proof.
  intros Hi. unfold refs_of. rewrite map_fold_insert_L; [done| |done].
  intros. multiset_solver.
Qed.

Lemma refs_of_delete (m : gmap K A) i x :
  m !! i = Some x → refs_of f m = f x ⊎ refs_of f (delete i m).
Proof.
  intros Hi. rewrite <-(insert_delete_id m i x) at 1 by done.
  apply refs_of_insert, lookup_delete_eq.
Qed.

Lemma refs_of_replace (m : gmap K A) i x y :
  m !! i = Some y → f x = f y → refs_of f (<[i:=x]> m) = refs_of f m.
Proof.
  intros Hi Hf. rewrite (refs_of_delete m i y Hi), <-insert_delete_eq.
  rewrite refs_of_insert by apply lookup_delete_eq. by rewrite Hf.
Qed.

Lemma refs_of_union (m1 m2 : gmap K A) :
  m1 ##ₘ m2 → refs_of f (m1 ∪ m2) = refs_of f m1 ⊎ refs_of f m2.
Proof.
  induction m1 as [|i x m1 Hi IH] using map_ind; intros Hd.
  - by rewrite (left_id ∅ _), refs_of_empty, (left_id ∅ _).
  - apply map_disjoint_insert_l in Hd as [Hi2 Hd].
    rewrite <-insert_union_l, !refs_of_insert, IH; [|done|done|].
    + by rewrite (assoc (⊎)).
    + by apply lookup_union_None.
Qed.
End refs_of.

Lemma wrap_int_id z : INT_MIN ≤ z ≤ INT_MAX → wrap_int z = z.
Proof.
  unfold INT_MIN, INT_MAX, wrap_int. intros Hz.
  rewrite Z.mod_small; lia.
Qed.

Lemma counted_lookup σ R c :
  counted σ R → c ∈ heap_refs σ ⊎ R →
  ∃ n, σ !! c = Some n ∧
       Z.of_nat (multiplicity c (heap_refs σ ⊎ R)) ≤ ref_count n ≤ INT_MAX.
Proof.
  intros Hc Hin. apply gmultiset_elem_of_dom in Hin. specialize (Hc c Hin).
  unfold count_ok in Hc. destruct (σ !! c) as [n|]; [|done]. by exists n.
Qed.

Lemma counted_intro σ R :
  (∀ c, c ∈ heap_refs σ ⊎ R →
     ∃ n, σ !! c = Some n ∧
          Z.of_nat (multiplicity c (heap_refs σ ⊎ R)) ≤ ref_count n ≤ INT_MAX) →
  counted σ R.
Proof.
  intros Hc c Hin. apply gmultiset_elem_of_dom in Hin.
  destruct (Hc c Hin) as (n & Hn & ?). unfold count_ok. by rewrite Hn.
Qed.

Lemma handle_refs_rev hs : handle_refs (rev hs) = handle_refs hs.
Proof.
  unfold handle_refs. by rewrite <-Permutation_rev.
Qed.

Lemma handle_refs_cons h hs :
  handle_refs (h :: hs) = handle_refs [h] ⊎ handle_refs hs.
Proof. unfold handle_refs. destruct h; simpl; multiset_solver. Qed.

Lemma same_fields_refl σ : same_fields σ σ.
Proof. intros l n Hn. by exists n. Qed.

Lemma same_fields_trans σ1 σ2 σ3 :
  same_fields σ1 σ2 → same_fields σ2 σ3 → same_fields σ1 σ3.
Proof.
  intros H12 H23 l n3 Hn3. destruct (H23 l n3 Hn3) as (n2 & Hn2 & E2).
  destruct (H12 l n2 Hn2) as (n1 & Hn1 & E1). exists n1. split; [done|congruence].
Qed.


Lemma same_fields_set_ref_count σ l n c :
  σ !! l = Some n → same_fields σ (<[l := set_ref_count c n]> σ).
Proof.
  intros Hl x n' Hn'. destruct (decide (l = x)) as [<-|Hne].
  - rewrite lookup_insert_eq in Hn'. injection Hn' as <-. by exists n.
  - rewrite lookup_insert_ne in Hn' by done. by exists n'.
Qed.

Lemma released_refl σ : released σ σ.
Proof. intros l n Hn. by exists n. Qed.

Lemma released_trans σ1 σ2 σ3 :
  released σ1 σ2 → released σ2 σ3 → released σ1 σ3.
Proof.
  intros H12 H23 l n3 Hn3. destruct (H23 l n3 Hn3) as (n2 & Hn2 & E2 & C2).
  destruct (H12 l n2 Hn2) as (n1 & Hn1 & E1 & C1). exists n1.
  split_and!; [done|congruence|lia].
Qed.

Lemma released_delete σ l : released σ (delete l σ).
Proof.
  intros x n Hn. apply lookup_delete_Some in Hn as [_ Hn]. by exists n.
Qed.

Lemma released_set_ref_count σ l n c :
  σ !! l = Some n → c ≤ ref_count n → released σ (<[l := set_ref_count c n]> σ).
Proof.
  intros Hl Hc x n' Hn'. destruct (decide (l = x)) as [<-|Hne].
  - rewrite lookup_insert_eq in Hn'. injection Hn' as <-. by exists n.
  - rewrite lookup_insert_ne in Hn' by done. by exists n'.
Qed.

Lemma released_same_fields σ σ' : released σ σ' → same_fields σ σ'.
Proof.
  intros H l n' Hn'. destruct (H l n' Hn') as (n & Hn & E & _). by exists n.
Qed.

Lemma size_dom_subseteq (L L' : gmap loc IRNode) :
  dom L' ⊆ dom L → (size L' ≤ size L)%nat.
Proof. intros Hd. rewrite <-!size_dom. by apply subseteq_size. Qed.

Lemma disjoint_dom_subseteq (L L' Zm : gmap loc IRNode) :
  dom L' ⊆ dom L → Zm ##ₘ L → Zm ##ₘ L'.
Proof. rewrite !map_disjoint_dom. set_solver. Qed.

Lemma destroy_handles_counted f (IH : decref_spec f) :
  ∀ hs (L : gmap loc IRNode) (R : gmultiset loc),
    counted L (handle_refs hs ⊎ R) → (size L ≤ f)%nat →
    ∃ L',
      counted L' R ∧ dom L' ⊆ dom L ∧ released L L' ∧
      ∀ Zm : gmap loc IRNode, Zm ##ₘ L →
        destroy_handles (decref f) hs (L ∪ Zm) = Ok (L' ∪ Zm).
Proof.
  induction hs as [|h hs IHhs]; intros L R Hc Hsz.
  - exists L. split_and!; [|done|apply released_refl|done].
    assert (handle_refs [] = ∅) as Hs by done.
    by rewrite Hs, (left_id ∅ _) in Hc.
  - rewrite handle_refs_cons in Hc. destruct h as [c|].
    + assert (handle_refs [Some c] = {[+ c +]}) as Hs
        by (unfold handle_refs; simpl; multiset_solver).
      rewrite Hs, <-(assoc (⊎)) in Hc.
      destruct (counted_lookup _ _ c Hc) as (n & Hn & _); [multiset_solver|].
      destruct (IH L _ c n Hc Hn Hsz) as (L1 & node' & Hc1 & Hd1 & Hf1 & _ & _ & Hrun).
      destruct (IHhs L1 R Hc1) as (L2 & Hc2 & Hd2 & Hf2 & Hrun2).
      { pose proof (size_dom_subseteq _ _ Hd1). lia. }
      exists L2. split_and!; [done|set_solver|by eapply released_trans|].
      intros Zm HZ. simpl. rewrite (Hrun Zm HZ). simpl.
      apply Hrun2. by eapply disjoint_dom_subseteq.
    + assert (handle_refs [None] = ∅) as Hs by done.
      rewrite Hs, (left_id ∅ _) in Hc.
      destruct (IHhs L R Hc Hsz) as (L2 & Hc2 & Hd2 & Hf2 & Hrun2).
      exists L2. split_and!; [done..|].
      intros Zm HZ. simpl. destruct f; simpl; by apply Hrun2.
Qed.

Lemma heap_refs_delete (L : gmap loc IRNode) c n :
  L !! c = Some n → heap_refs L = node_refs n ⊎ heap_refs (delete c L).
Proof. apply refs_of_delete. Qed.

Lemma heap_refs_set_ref_count (L : gmap loc IRNode) c n k :
  L !! c = Some n → heap_refs (<[c := set_ref_count k n]> L) = heap_refs L.
Proof. intros Hn. by apply refs_of_replace with n. Qed.

Lemma union_move_insert (L Zm : gmap loc IRNode) c n0 :
  <[c := n0]> (L ∪ Zm) = delete c L ∪ <[c := n0]> Zm.
Proof.
  apply map_eq. intros i. destruct (decide (c = i)) as [<-|Hne].
  - rewrite lookup_insert_eq. symmetry. apply lookup_union_Some_raw. right.
    by rewrite lookup_delete_eq, lookup_insert_eq.
  - rewrite lookup_insert_ne by done.
    rewrite !lookup_union, lookup_delete_ne, lookup_insert_ne by done. done.
Qed.

Lemma decref_total fuel : decref_spec fuel.
Proof.
  induction fuel as [|f IH]; intros L R c n Hc Hn Hsz.
  { assert (L = ∅) as -> by (apply map_size_empty_iff; lia). done. }
  destruct (counted_lookup _ _ c Hc) as (n' & Hn' & Hle & Hmax); [multiset_solver|].
  rewrite Hn in Hn'. injection Hn' as <-.
  assert (1 ≤ ref_count n) as Hpos.
  { rewrite !multiplicity_disj_union, multiplicity_singleton_eq in Hle. lia. }
  assert (wrap_int (ref_count n - 1) = ref_count n - 1) as Hw.
  { apply wrap_int_id. unfold INT_MIN, INT_MAX in *. lia. }
  destruct (decide (ref_count n = 1)) as [H1|H1].
  - (* the last reference: the node is deleted *)
    set (n0 := set_ref_count (wrap_int (ref_count n - 1)) n).
    assert (multiplicity c (heap_refs L ⊎ R) = 0%nat) as Hc0.
    { rewrite !multiplicity_disj_union, multiplicity_singleton_eq in Hle.
      rewrite multiplicity_disj_union. lia. }
    assert (counted (delete c L) (handle_refs (rev (members (fields n))) ⊎ R)) as Hc1.
    { apply counted_intro. intros x Hx.
      rewrite handle_refs_rev in *. fold (node_refs n) in *.
      assert (heap_refs (delete c L) ⊎ (node_refs n ⊎ R) = heap_refs L ⊎ R) as HE.
      { rewrite (heap_refs_delete L c n Hn). multiset_solver. }
      rewrite HE in *.
      assert (x ≠ c) as Hxc.
      { intros ->. rewrite elem_of_multiplicity in Hx. lia. }
      destruct (counted_lookup _ _ x Hc) as (nx & Hnx & Hlx & Hmx); [multiset_solver|].
      exists nx. rewrite lookup_delete_ne by done. split; [done|].
      rewrite !multiplicity_disj_union in *.
      rewrite multiplicity_singleton_ne in Hlx by done. lia. }
    destruct (destroy_handles_counted f IH _ _ _ Hc1)
      as (L2 & Hc2 & Hd2 & Hf2 & Hrun2).
    { rewrite map_size_delete_Some in *; [lia|done..]. }
    assert (L2 !! c = None) as HcL2.
    { apply not_elem_of_dom. rewrite dom_delete_L in Hd2. set_solver. }
    exists L2, None. split_and!; try done.
    + rewrite dom_delete_L in Hd2. set_solver.
    + eapply released_trans; [apply (released_delete L c)|done].
    + intros Zm HZ.
      assert (Zm !! c = None) as HcZ.
      { eapply map_disjoint_Some_r; [exact HZ|exact Hn]. }
      simpl. rewrite (lookup_union_Some_l _ _ _ _ Hn). fold n0.
      rewrite decide_True by (subst n0; simpl; lia).
      rewrite union_move_insert, Hrun2.
      * simpl. f_equal. f_equal. apply map_eq. intros i.
        destruct (decide (c = i)) as [<-|Hne].
        -- rewrite lookup_delete_eq. symmetry.
           apply lookup_union_None. done.
        -- rewrite lookup_delete_ne by done.
           rewrite !lookup_union, lookup_insert_ne by done. done.
      * apply map_disjoint_insert_l. split; [apply lookup_delete_eq|].
        apply map_disjoint_dom. apply map_disjoint_dom in HZ.
        rewrite dom_delete_L. set_solver.
  - (* other references remain *)
    set (n1 := set_ref_count (ref_count n - 1) n).
    exists (<[c := n1]> L), (Some c). split_and!; try done.
    + apply counted_intro. intros x Hx.
      subst n1. rewrite heap_refs_set_ref_count in * by done.
      destruct (counted_lookup _ _ x Hc) as (nx & Hnx & Hlx & Hmx); [multiset_solver|].
      destruct (decide (c = x)) as [<-|Hne].
      * rewrite lookup_insert_eq. eexists; split; [done|]. simpl.
        rewrite Hn in Hnx. injection Hnx as <-.
        rewrite !multiplicity_disj_union in *.
        rewrite multiplicity_singleton_eq in Hlx. lia.
      * rewrite lookup_insert_ne by done. exists nx. split; [done|].
        rewrite !multiplicity_disj_union in *.
        rewrite multiplicity_singleton_ne in Hlx by done. lia.
    + rewrite dom_insert_L. apply elem_of_dom_2 in Hn. set_solver.
    + apply released_set_ref_count; [done|lia].
    + intros Zm HZ. simpl. rewrite (lookup_union_Some_l _ _ _ _ Hn).
      rewrite Hw. fold n1. rewrite decide_False by (subst n1; simpl; lia).
      by rewrite insert_union_l.
Qed.

(** ** Members never change *)

Lemma result_bind_Ok {A B} (r : result A) (k : A → result B) b :
  result_bind r k = Ok b → ∃ a, r = Ok a ∧ k a = Ok b.
Proof. destruct r; simpl; try done. intros. by eexists. Qed.




(** ** Handle objects *)

Lemma var_refs_delete (vs : gmap string (option loc)) h node :
  vs !! h = Some node →
  var_refs vs = handle_refs [node] ⊎ var_refs (delete h vs).
Proof. apply (refs_of_delete (λ h, handle_refs [h])). Qed.

Lemma var_refs_insert (vs : gmap string (option loc)) h node :
  vs !! h = None →
  var_refs (<[h := node]> vs) = handle_refs [node] ⊎ var_refs vs.
Proof. apply (refs_of_insert (λ h, handle_refs [h])). Qed.

Lemma handle_refs_Some l : handle_refs [Some l] = {[+ l +]}.
Proof. unfold handle_refs. simpl. multiset_solver. Qed.

Lemma handle_refs_None : handle_refs [None] = ∅.
Proof. done. Qed.

Lemma counted_incref (L : gmap loc IRNode) R l n :
  counted L R → L !! l = Some n →
  Z.of_nat (multiplicity l (heap_refs L ⊎ R)) ≤ ref_count n < INT_MAX →
  incref (Some l) L = Ok (tt, <[l := set_ref_count (ref_count n + 1) n]> L) ∧
  counted (<[l := set_ref_count (ref_count n + 1) n]> L) ({[+ l +]} ⊎ R).
Proof.
  intros Hc Hn [Hlo Hhi]. split.
  - simpl. rewrite Hn, wrap_int_id; [done|]. unfold INT_MIN, INT_MAX in *. lia.
  - apply counted_intro. intros x Hx.
    rewrite heap_refs_set_ref_count in * by done.
    destruct (decide (l = x)) as [<-|Hne].
    + rewrite lookup_insert_eq. eexists; split; [done|]. simpl.
      rewrite !multiplicity_disj_union in *.
      rewrite multiplicity_singleton_eq. lia.
    + destruct (counted_lookup _ _ x Hc) as (nx & Hnx & Hlx & Hmx).
      { rewrite !gmultiset_elem_of_disj_union in *.
        rewrite gmultiset_elem_of_singleton in Hx. naive_solver. }
      rewrite lookup_insert_ne by done. exists nx. split; [done|].
      rewrite !multiplicity_disj_union in *.
      rewrite multiplicity_singleton_ne by done. lia.
Qed.

(** Destroying a counted handle object. *)
Lemma IRHandle_dtor_counted s h l n :
  wf_state s → vars s !! h = Some (Some l) → heap s !! l = Some n →
  ∃ s', IRHandle_dtor h s = Ok s' ∧ wf_state s' ∧
        vars s' = delete h (vars s) ∧
        released (heap s) (heap s') ∧
        (ref_count n = 1 → heap s' !! l = None) ∧
        (ref_count n ≠ 1 →
           heap s' = <[l := set_ref_count (ref_count n - 1) n]> (heap s)).
Proof.
  intros Hwf Hh Hn. unfold wf_state in Hwf.
  rewrite (var_refs_delete _ _ _ Hh), handle_refs_Some in Hwf.
  destruct (decref_total (enough (heap s)) _ _ l n Hwf Hn)
    as (L' & node' & Hc' & Hd' & Hf' & H1 & H2 & Hrun).
  { unfold enough. lia. }
  specialize (Hrun ∅ (map_disjoint_empty_l _)).
  rewrite !(right_id ∅ _) in Hrun.
  exists (MkState L' (delete h (vars s))).
  unfold IRHandle_dtor. rewrite Hh, Hrun. simpl.
  split_and!; try done; naive_solver.
Qed.

(** Copy constructing from a counted handle object. *)
Lemma IRHandle_ctor_copy_counted s h h' l n :
  wf_state s → vars s !! h = Some (Some l) → vars s !! h' = None →
  heap s !! l = Some n → ref_count n < INT_MAX →
  let s' := MkState (<[l := set_ref_count (ref_count n + 1) n]> (heap s))
                    (<[h' := Some l]> (vars s)) in
  IRHandle_ctor_copy h' (InScope h) s = Ok s' ∧ wf_state s'.
Proof.
  intros Hwf Hh Hh' Hn Hmax. simpl.
  destruct (counted_lookup _ _ l Hwf) as (n' & Hn' & Hlo & _).
  { rewrite (var_refs_delete _ _ _ Hh), handle_refs_Some. multiset_solver. }
  rewrite Hn in Hn'. injection Hn' as <-.
  destruct (counted_incref _ _ l n Hwf Hn) as [Hi Hc]; [lia|].
  unfold IRHandle_ctor_copy, read_node. rewrite Hh.
  unfold result_bind at 1, IRHandle_ctor_node. rewrite Hi. simpl.
  split; [done|]. unfold wf_state. simpl.
  by rewrite var_refs_insert, handle_refs_Some.
Qed.

Lemma var_refs_insert_over (vs : gmap string (option loc)) h node :
  var_refs (<[h := node]> vs) = handle_refs [node] ⊎ var_refs (delete h vs).
Proof. rewrite <-insert_delete_eq. apply var_refs_insert, lookup_delete_eq. Qed.

(** Assigning to a counted handle object from one with another referent. *)
Lemma IRHandle_assign_counted s h o l n new :
  wf_state s → vars s !! h = Some (Some l) → vars s !! o = Some new →
  new ≠ Some l → heap s !! l = Some n →
  ∃ s', IRHandle_assign h (InScope o) s = Ok s' ∧ vars s' !! h = Some new ∧
        (ref_count n = 1 → heap s' !! l = None) ∧
        (ref_count n ≠ 1 →
           ∃ n', heap s' !! l = Some n' ∧ ref_count n' = ref_count n - 1 ∧
                 fields n' = fields n) ∧
        ((∀ m nm, new = Some m → heap s !! m = Some nm →
                  ref_count nm < INT_MAX) → wf_state s').
Proof.
  intros Hwf Hh Ho Hne Hn. unfold wf_state in Hwf.
  assert (h ≠ o) as Hho by (intros ->; congruence).
  rewrite (var_refs_delete _ _ _ Hh), handle_refs_Some in Hwf.
  destruct (decref_total (enough (heap s)) _ _ l n Hwf Hn)
    as (L' & node' & Hc' & Hd' & Hf' & H1 & H2 & Hrun).
  { unfold enough. lia. }
  specialize (Hrun ∅ (map_disjoint_empty_l _)).
  rewrite !(right_id ∅ _) in Hrun.
  unfold IRHandle_assign. rewrite Hh, Hrun. simpl.
  rewrite lookup_insert_ne, Ho by done.
  destruct new as [m|].
  - assert (m ≠ l) as Hml by congruence.
    destruct (counted_lookup _ _ m Hc') as (nm & Hnm & Hlo & _).
    { rewrite (var_refs_delete _ o (Some m)), handle_refs_Some
        by (by rewrite lookup_delete_ne).
      multiset_solver. }
    simpl. rewrite Hnm. simpl. eexists. split; [done|]. simpl.
    split; [apply lookup_insert_eq|].
    rewrite lookup_insert_ne by done. split_and!.
    + intros E. by destruct (H1 E).
    + intros E. destruct (H2 E) as [_ ->]. rewrite lookup_insert_eq.
      eexists. by split.
    + intros Hroom. unfold wf_state. simpl.
      destruct (Hf' m nm Hnm) as (n0 & Hn0 & _ & Hle).
      specialize (Hroom m n0 eq_refl Hn0).
      destruct (counted_incref L' _ m nm Hc' Hnm) as [Hi Hc'']; [lia|].
      simpl in Hi. rewrite Hnm in Hi. injection Hi as ->.
      by rewrite insert_insert_eq, var_refs_insert_over, handle_refs_Some.
  - simpl. eexists. split; [done|]. simpl.
    split; [apply lookup_insert_eq|]. split_and!.
    + intros E. by destruct (H1 E).
    + intros E. destruct (H2 E) as [_ ->]. rewrite lookup_insert_eq.
      eexists. by split.
    + intros _. unfold wf_state. simpl.
      by rewrite insert_insert_eq, var_refs_insert_over, handle_refs_None,
        (left_id ∅ _).
Qed.

(** [h = h] when [h] is the only holder of its node: [decref] deletes
    the node and clears [h], and that cleared [h] is what is read back. *)
Lemma IRHandle_self_assign_sole s h l n :
  wf_state s → vars s !! h = Some (Some l) → heap s !! l = Some n →
  ref_count n = 1 →
  ∃ s', IRHandle_assign h (InScope h) s = Ok s' ∧ vars s' !! h = Some None ∧
        heap s' !! l = None.
Proof.
  intros Hwf Hh Hn H1. unfold wf_state in Hwf.
  rewrite (var_refs_delete _ _ _ Hh), handle_refs_Some in Hwf.
  destruct (decref_total (enough (heap s)) _ _ l n Hwf Hn)
    as (L' & node' & Hc' & Hd' & Hf' & HL & _ & Hrun).
  { unfold enough. lia. }
  destruct (HL H1) as [-> HL'].
  specialize (Hrun ∅ (map_disjoint_empty_l _)).
  rewrite !(right_id ∅ _) in Hrun.
  unfold IRHandle_assign. rewrite Hh, Hrun. simpl.
  rewrite lookup_insert_eq. simpl. eexists. split; [done|]. simpl.
  by rewrite lookup_insert_eq.
Qed.

(** [h = h] when the node has another holder changes nothing. *)
Lemma IRHandle_self_assign_shared s h l n :
  wf_state s → vars s !! h = Some (Some l) → heap s !! l = Some n →
  ref_count n ≠ 1 →
  IRHandle_assign h (InScope h) s = Ok s.
Proof.
  intros Hwf Hh Hn H1. pose proof Hwf as Hwf'. unfold wf_state in Hwf.
  rewrite (var_refs_delete _ _ _ Hh), handle_refs_Some in Hwf.
  destruct (counted_lookup _ _ l Hwf) as (n' & Hn' & Hlo & Hhi); [multiset_solver|].
  rewrite Hn in Hn'. injection Hn' as <-.
  destruct (decref_total (enough (heap s)) _ _ l n Hwf Hn)
    as (L' & node' & Hc' & Hd' & Hf' & _ & HL & Hrun).
  { unfold enough. lia. }
  destruct (HL H1) as [-> ->].
  specialize (Hrun ∅ (map_disjoint_empty_l _)).
  rewrite !(right_id ∅ _) in Hrun.
  unfold IRHandle_assign. rewrite Hh, Hrun. simpl.
  rewrite !lookup_insert_eq. simpl. rewrite !lookup_insert_eq. simpl.
  rewrite wrap_int_id.
  2:{ rewrite !multiplicity_disj_union, multiplicity_singleton_eq in Hlo.
      unfold INT_MIN, INT_MAX in *. lia. }
  destruct s as [σ vs]. simpl in *. f_equal. f_equal.
  - rewrite insert_insert_eq. apply insert_id. rewrite Hn. f_equal.
    destruct n as [k d]. unfold set_ref_count. simpl. f_equal. lia.
  - rewrite insert_insert_eq. by apply insert_id.
Qed.

(** [h = o] when [o] is another handle object with the same referent:
    the count goes down and up again. *)
Lemma IRHandle_assign_same_referent s h o l :
  wf_state s → h ≠ o → vars s !! h = Some (Some l) →
  vars s !! o = Some (Some l) →
  ∃ n, heap s !! l = Some n ∧ 2 ≤ ref_count n ∧
       IRHandle_assign h (InScope o) s = Ok s.
Proof.
  intros Hwf Hne Hh Ho. pose proof Hwf as Hwf'. unfold wf_state in Hwf.
  rewrite (var_refs_delete _ _ _ Hh), handle_refs_Some in Hwf.
  rewrite (var_refs_delete _ o (Some l)), handle_refs_Some in Hwf
    by (by rewrite lookup_delete_ne).
  destruct (counted_lookup _ _ l Hwf) as (n & Hn & Hlo & Hhi); [multiset_solver|].
  rewrite !multiplicity_disj_union, !multiplicity_singleton_eq in Hlo.
  exists n. split; [done|]. split; [lia|].
  destruct (decref_total (enough (heap s)) _ _ l n Hwf Hn)
    as (L' & node' & Hc' & Hd' & Hf' & _ & HL & Hrun).
  { unfold enough. lia. }
  destruct HL as [-> ->]; [lia|].
  specialize (Hrun ∅ (map_disjoint_empty_l _)).
  rewrite !(right_id ∅ _) in Hrun.
  unfold IRHandle_assign. rewrite Hh, Hrun. simpl.
  rewrite lookup_insert_ne, Ho by done. simpl.
  rewrite !lookup_insert_eq. simpl.
  rewrite wrap_int_id by (unfold INT_MIN, INT_MAX in *; lia).
  destruct s as [σ vs]. simpl in *. f_equal. f_equal.
  - rewrite insert_insert_eq. apply insert_id. rewrite Hn. f_equal.
    destruct n as [k d]. unfold set_ref_count. simpl. f_equal. lia.
  - rewrite insert_insert_eq. by apply insert_id.
Qed.

Lemma five_state_wf : wf_state five_state.
Proof. apply (bool_decide_eq_true_1 (wf_state five_state)). vm_compute. reflexivity. Qed.

Lemma add_state_wf : wf_state add_state.
Proof. apply (bool_decide_eq_true_1 (wf_state add_state)). vm_compute. reflexivity. Qed.


(** ** Constructors keep the references counted *)

Lemma copy_handles_app hs1 hs2 σ :
  copy_handles (hs1 ++ hs2) σ =
    let? r := copy_handles hs1 σ in copy_handles hs2 r.2.
Proof.
  revert σ. induction hs1 as [|h hs1 IH]; intros σ; simpl; [done|].
  unfold bind. destruct (incref h σ) as [[[] σ1]| | |]; simpl; [apply IH|done..].
Qed.

Lemma Expr_copy_incref x σ r :
  Expr_copy x σ = Ok r → r.1 = x ∧ incref (expr_node x) σ = Ok (tt, r.2).
Proof.
  unfold Expr_copy, IRHandle_copy, bind, ret. cbv beta.
  destruct (incref (expr_node x) σ) as [[[] σ']| | |] eqn:E; simpl; try done.
  intros [= <-]. by destruct x.
Qed.

Lemma Stmt_copy_incref x σ r :
  Stmt_copy x σ = Ok r → r.1 = x ∧ incref (stmt_node x) σ = Ok (tt, r.2).
Proof.
  unfold Stmt_copy, IRHandle_copy, bind, ret. cbv beta.
  destruct (incref (stmt_node x) σ) as [[[] σ']| | |] eqn:E; simpl; try done.
  intros [= <-]. by destruct x.
Qed.

Lemma vector_copy_handles a σ r :
  vector_copy a σ = Ok r →
  r.1 = a ∧ copy_handles (expr_node <$> a) σ = Ok (tt, r.2).
Proof.
  revert σ r. induction a as [|x a IH]; intros σ r; simpl.
  - by intros [= <-].
  - intros H. apply bind_inv in H as (x' & σ1 & E1 & H).
    apply bind_inv in H as (a' & σ2 & E2 & H).
    apply Expr_copy_incref in E1 as (E1 & I1).
    apply IH in E2 as (E2 & I2). simpl in *. subst.
    injection H as <-. simpl. split; [done|].
    by rewrite (bind_Ok _ _ _ _ _ I1).
Qed.

Lemma vector_pair_copy_handles a σ r :
  vector_pair_copy a σ = Ok r →
  r.1 = a ∧ copy_handles (a ≫= pair_handles) σ = Ok (tt, r.2).
Proof.
  revert σ r. induction a as [|[x1 x2] a IH]; intros σ r; simpl.
  - by intros [= <-].
  - intros H. apply bind_inv in H as (x1' & σ1 & E1 & H).
    apply bind_inv in H as (x2' & σ2 & E2 & H).
    apply bind_inv in H as (a' & σ3 & E3 & H).
    apply Expr_copy_incref in E1 as (E1 & I1).
    apply Expr_copy_incref in E2 as (E2 & I2).
    apply IH in E3 as (E3 & I3). simpl in *. subst.
    injection H as <-. simpl. split; [done|].
    by rewrite (bind_Ok _ _ _ _ _ I1), (bind_Ok _ _ _ _ _ I2).
Qed.

(** One member initialiser that has returned, as its [incref]s. *)
Ltac copy_incref H :=
  let E := fresh "E" in
  let I := fresh "I" in
  match type of H with
  | bind (Expr_copy _) _ _ = Ok _ =>
      apply bind_inv in H as (? & ? & E & H);
      apply Expr_copy_incref in E as (E & I)
  | bind (Stmt_copy _) _ _ = Ok _ =>
      apply bind_inv in H as (? & ? & E & H);
      apply Stmt_copy_incref in E as (E & I)
  | bind (vector_copy _) _ _ = Ok _ =>
      apply bind_inv in H as (? & ? & E & H);
      apply vector_copy_handles in E as (E & I)
  | bind (vector_pair_copy _) _ _ = Ok _ =>
      apply bind_inv in H as (? & ? & E & H);
      apply vector_pair_copy_handles in E as (E & I)
  end; simpl in E, I; subst.

(** A constructor that returns has run the initialisers of all handle
    members and then put the node at a fresh address. *)
Lemma construct_copy_handles c σ l σ' :
  construct c σ = Ok (l, σ') →
  ∃ σ1, copy_handles (members (node_of c)) σ = Ok (tt, σ1) ∧
        l = fresh (dom σ1) ∧ σ' = <[l := MkNode 0 (node_of c)]> σ1.
Proof.
  intros H.
  destruct c; simpl in *;
    unfold new_IntImm, new_FloatImm, new_Cast, new_Var, new_Add, new_Sub,
      new_Mul, new_Div, new_Mod, new_Min, new_Max, new_EQ, new_NE, new_LT,
      new_LE, new_GT, new_GE, new_And, new_Or, new_Not, new_Select, new_Load,
      new_Ramp, new_Call, new_Let, new_LetStmt, new_PrintStmt, new_AssertStmt,
      new_Pipeline, new_For, new_Store, new_Provide, new_Allocate, new_Realize,
      new_Block in H;
    repeat copy_incref H;
    repeat (progress (rewrite ?bind_assert, ?bind_assert_args,
                        ?bind_assert_bounds in H; cbv beta in H));
    repeat match type of H with
           | (if ?b then _ else _) = Ok _ => destruct b; [|discriminate H]
           end;
    unfold new in H; cbv beta zeta in H; injection H as <- <-;
    eexists; (split; [|split; reflexivity]);
    rewrite ?copy_handles_app; simpl; unfold bind, ret; simpl;
    repeat match goal with
           | I : _ = Ok _ |- _ =>
               rewrite I; clear I; simpl; unfold bind, ret; simpl
           end; reflexivity.
Qed.

Lemma copy_handles_counted hs :
  ∀ (σ : gmap loc IRNode) R σ',
    counted σ R → headroom σ hs → copy_handles hs σ = Ok (tt, σ') →
    counted σ' (handle_refs hs ⊎ R) ∧ dom σ' = dom σ.
Proof.
  induction hs as [|h hs IH]; intros σ R σ' Hc Hr H.
  - injection H as <-. split; [|done].
    assert (handle_refs [] = ∅) as -> by done. by rewrite (left_id ∅ _).
  - rewrite handle_refs_cons. destruct h as [l|].
    + simpl in H. apply bind_inv in H as ([] & σ1 & Hi & H).
      simpl in Hi. destruct (σ !! l) as [n|] eqn:Hn; [|done].
      destruct (Hr l n) as [H0 Hmax]; [by left|done|]. simpl in Hmax.
      destruct (counted_incref σ R l n Hc Hn) as [Hi' Hc1].
      { split; [|lia].
        destruct (decide (l ∈ heap_refs σ ⊎ R)) as [Hin|Hout].
        - destruct (counted_lookup _ _ l Hc Hin) as (n' & Hn' & ? & _).
          congruence.
        - rewrite elem_of_multiplicity in Hout. lia. }
      simpl in Hi'. rewrite Hn in Hi'. rewrite Hi' in Hi.
      injection Hi as <-.
      assert (headroom (<[l := set_ref_count (ref_count n + 1) n]> σ) hs) as Hr1.
      { intros l' n' Hin Hn'. destruct (decide (l = l')) as [<-|Hne].
        - rewrite lookup_insert_eq in Hn'. injection Hn' as <-. simpl. lia.
        - rewrite lookup_insert_ne in Hn' by done.
          destruct (Hr l' n') as [? ?]; [by right|done|]. simpl in *. lia. }
      destruct (IH _ _ σ' Hc1 Hr1 H) as [Hc' Hd'].
      rewrite handle_refs_Some. split.
      * assert ({[+ l +]} ⊎ handle_refs hs ⊎ R
                = handle_refs hs ⊎ ({[+ l +]} ⊎ R)) as -> by multiset_solver.
        done.
      * rewrite Hd', dom_insert_L. apply elem_of_dom_2 in Hn. set_solver.
    + simpl in H. unfold bind in H. simpl in H.
      rewrite handle_refs_None, (left_id ∅ _). apply IH; [done| |done].
      intros l' n' Hin Hn'. destruct (Hr l' n') as [? ?]; [by right|done|].
      simpl in *. lia.
Qed.

(** A constructor that returns leaves the references counted; its node
    is new and nothing refers to it yet. *)
Lemma construct_counted c (σ : gmap loc IRNode) R l σ' :
  counted σ R → headroom σ (members (node_of c)) →
  construct c σ = Ok (l, σ') →
  counted σ' R ∧ σ !! l = None ∧ l ∉ heap_refs σ' ⊎ R ∧
  σ' !! l = Some (MkNode 0 (node_of c)).
Proof.
  intros Hc Hr H.
  apply construct_copy_handles in H as (σ1 & Hcp & -> & ->).
  destruct (copy_handles_counted _ _ _ _ Hc Hr Hcp) as [Hc1 Hd1].
  pose proof (is_fresh (dom σ1)) as Hf. set (l := fresh (dom σ1)) in *.
  assert (σ1 !! l = None) as Hl1 by by apply not_elem_of_dom.
  assert (heap_refs (<[l := MkNode 0 (node_of c)]> σ1) ⊎ R
          = heap_refs σ1 ⊎ (handle_refs (members (node_of c)) ⊎ R)) as HE.
  { unfold heap_refs. rewrite refs_of_insert by done.
    unfold node_refs. simpl. multiset_solver. }
  split_and!.
  - apply counted_intro. intros x Hx. rewrite HE in *.
    destruct (counted_lookup _ _ x Hc1 Hx) as (nx & Hnx & Hle).
    exists nx. split; [|done]. rewrite lookup_insert_ne; [done|].
    intros <-. congruence.
  - apply not_elem_of_dom. by rewrite <-Hd1.
  - rewrite HE. intros Hx.
    destruct (counted_lookup _ _ l Hc1 Hx) as (nx & Hnx & _). congruence.
  - apply lookup_insert_eq.
Qed.

(** [Expr x(new ...)] on a counted state. *)
Lemma IRHandle_ctor_node_counted c s l σ' x :
  wf_state s → vars s !! x = None →
  headroom (heap s) (members (node_of c)) →
  construct c (heap s) = Ok (l, σ') →
  ∃ s', IRHandle_ctor_node x (Some l) (MkState σ' (vars s)) = Ok s' ∧
        wf_state s' ∧ vars s' !! x = Some (Some l) ∧
        heap s' !! l = Some (MkNode 1 (node_of c)).
Proof.
  intros Hwf Hx Hr H.
  destruct (construct_counted _ _ _ _ _ Hwf Hr H) as (Hc & _ & Hout & Hl).
  destruct (counted_incref σ' _ l _ Hc Hl) as [Hi Hc'].
  { rewrite elem_of_multiplicity in Hout. unfold INT_MAX. simpl. lia. }
  unfold IRHandle_ctor_node. simpl heap. rewrite Hi. simpl.
  eexists. split; [done|]. simpl. split_and!.
  - unfold wf_state. simpl. by rewrite var_refs_insert, handle_refs_Some.
  - apply lookup_insert_eq.
  - apply lookup_insert_eq.
Qed.

(** [Expr x;] on a counted state. *)
Lemma IRHandle_ctor_counted s x :
  wf_state s → vars s !! x = None →
  ∃ s', IRHandle_ctor x s = Ok s' ∧ wf_state s' ∧ vars s' !! x = Some None.
Proof.
  intros Hwf Hx. eexists. split; [done|]. simpl. split.
  - unfold wf_state. simpl.
    by rewrite var_refs_insert, handle_refs_None, (left_id ∅ _).
  - apply lookup_insert_eq.
Qed.

(** The program starts with nothing allocated and no handle in scope. *)
Lemma wf_state_initial : wf_state (MkState ∅ ∅).
Proof.
  apply counted_intro. intros c Hc. simpl in Hc.
  unfold heap_refs, var_refs in Hc. rewrite !refs_of_empty in Hc.
  multiset_solver.
Qed.
(** ** Members never change, operation by operation *)


(** ** Exact counts *)

Lemma exact_ref σ R c :
  exact σ R → c ∈ heap_refs σ ⊎ R → is_Some (σ !! c).
Proof. intros [H _] Hc. apply H. by apply gmultiset_elem_of_dom. Qed.

Lemma exact_node σ R c n :
  exact σ R → σ !! c = Some n →
  ref_count n = Z.of_nat (multiplicity c (heap_refs σ ⊎ R)) ∧
  1 ≤ ref_count n ≤ INT_MAX.
Proof. intros [_ H] Hc. by apply (H c n). Qed.

Lemma exact_intro σ R :
  (∀ c, c ∈ heap_refs σ ⊎ R → is_Some (σ !! c)) →
  (∀ c n, σ !! c = Some n →
     ref_count n = Z.of_nat (multiplicity c (heap_refs σ ⊎ R)) ∧
     1 ≤ ref_count n ≤ INT_MAX) →
  exact σ R.
Proof.
  intros H1 H2. split.
  - intros c Hc. apply H1. by apply gmultiset_elem_of_dom.
  - intros c n Hc. by apply H2.
Qed.

Lemma exact_counted σ R : exact σ R → counted σ R.
Proof.
  intros He. apply counted_intro. intros c Hc.
  destruct (exact_ref _ _ _ He Hc) as [n Hn]. exists n. split; [done|].
  destruct (exact_node _ _ _ _ He Hn) as [-> ?]. lia.
Qed.

Lemma destroy_handles_exact f (IH : decref_exact_spec f) :
  ∀ hs (L : gmap loc IRNode) (R : gmultiset loc),
    exact L (handle_refs hs ⊎ R) → (size L ≤ f)%nat →
    ∃ L',
      exact L' R ∧ dom L' ⊆ dom L ∧ released L L' ∧
      ∀ Zm : gmap loc IRNode, Zm ##ₘ L →
        destroy_handles (decref f) hs (L ∪ Zm) = Ok (L' ∪ Zm).
Proof.
  induction hs as [|h hs IHhs]; intros L R Hc Hsz.
  - exists L. split_and!; [|done|apply released_refl|done].
    assert (handle_refs [] = ∅) as Hs by done.
    by rewrite Hs, (left_id ∅ _) in Hc.
  - rewrite handle_refs_cons in Hc. destruct h as [c|].
    + rewrite handle_refs_Some, <-(assoc (⊎)) in Hc.
      destruct (exact_ref _ _ c Hc) as [n Hn]; [multiset_solver|].
      destruct (IH L _ c n Hc Hn Hsz) as (L1 & node' & Hc1 & Hd1 & Hf1 & _ & _ & Hrun).
      destruct (IHhs L1 R Hc1) as (L2 & Hc2 & Hd2 & Hf2 & Hrun2).
      { pose proof (size_dom_subseteq _ _ Hd1). lia. }
      exists L2. split_and!; [done|set_solver|by eapply released_trans|].
      intros Zm HZ. simpl. rewrite (Hrun Zm HZ). simpl.
      apply Hrun2. by eapply disjoint_dom_subseteq.
    + rewrite handle_refs_None, (left_id ∅ _) in Hc.
      destruct (IHhs L R Hc Hsz) as (L2 & Hc2 & Hd2 & Hf2 & Hrun2).
      exists L2. split_and!; [done..|].
      intros Zm HZ. simpl. destruct f; simpl; by apply Hrun2.
Qed.

Lemma decref_exact fuel : decref_exact_spec fuel.
Proof.
  induction fuel as [|f IH]; intros L R c n Hc Hn Hsz.
  { assert (L = ∅) as -> by (apply map_size_empty_iff; lia). done. }
  destruct (exact_node _ _ _ _ Hc Hn) as (Hcnt & Hpos & Hmax).
  rewrite !multiplicity_disj_union, multiplicity_singleton_eq in Hcnt.
  assert (wrap_int (ref_count n - 1) = ref_count n - 1) as Hw.
  { apply wrap_int_id. unfold INT_MIN, INT_MAX in *. lia. }
  destruct (decide (ref_count n = 1)) as [H1|H1].
  - set (n0 := set_ref_count (wrap_int (ref_count n - 1)) n).
    assert (multiplicity c (heap_refs L ⊎ R) = 0%nat) as Hc0
      by (rewrite multiplicity_disj_union; lia).
    assert (heap_refs (delete c L) ⊎ (node_refs n ⊎ R) = heap_refs L ⊎ R) as HE.
    { rewrite (heap_refs_delete L c n Hn). multiset_solver. }
    assert (exact (delete c L) (handle_refs (rev (members (fields n))) ⊎ R)) as Hc1.
    { rewrite handle_refs_rev. fold (node_refs n). apply exact_intro.
      - intros x Hx. rewrite HE in Hx.
        assert (x ≠ c) as Hxc.
        { intros ->. rewrite elem_of_multiplicity in Hx. lia. }
        rewrite lookup_delete_ne by done. apply (exact_ref _ _ x Hc).
        multiset_solver.
      - intros x nx Hx. apply lookup_delete_Some in Hx as [Hxc Hx].
        destruct (exact_node _ _ _ _ Hc Hx) as (Hx1 & Hx2). rewrite HE.
        split; [|done]. rewrite Hx1, !multiplicity_disj_union.
        rewrite multiplicity_singleton_ne by done. lia. }
    destruct (destroy_handles_exact f IH _ _ _ Hc1)
      as (L2 & Hc2 & Hd2 & Hf2 & Hrun2).
    { rewrite map_size_delete_Some in *; [lia|done..]. }
    assert (L2 !! c = None) as HcL2.
    { apply not_elem_of_dom. rewrite dom_delete_L in Hd2. set_solver. }
    exists L2, None. split_and!; try done.
    + rewrite dom_delete_L in Hd2. set_solver.
    + eapply released_trans; [apply (released_delete L c)|done].
    + intros Zm HZ.
      assert (Zm !! c = None) as HcZ.
      { eapply map_disjoint_Some_r; [exact HZ|exact Hn]. }
      simpl. rewrite (lookup_union_Some_l _ _ _ _ Hn). fold n0.
      rewrite decide_True by (subst n0; simpl; lia).
      rewrite union_move_insert, Hrun2.
      * simpl. f_equal. f_equal. apply map_eq. intros i.
        destruct (decide (c = i)) as [<-|Hne].
        -- rewrite lookup_delete_eq. symmetry.
           apply lookup_union_None. done.
        -- rewrite lookup_delete_ne by done.
           rewrite !lookup_union, lookup_insert_ne by done. done.
      * apply map_disjoint_insert_l. split; [apply lookup_delete_eq|].
        apply map_disjoint_dom. apply map_disjoint_dom in HZ.
        rewrite dom_delete_L. set_solver.
  - set (n1 := set_ref_count (ref_count n - 1) n).
    exists (<[c := n1]> L), (Some c). split_and!; try done.
    + subst n1. apply exact_intro.
      * intros x Hx. rewrite heap_refs_set_ref_count in Hx by done.
        apply lookup_insert_is_Some'. right. apply (exact_ref _ _ x Hc).
        multiset_solver.
      * intros x nx Hx. rewrite heap_refs_set_ref_count by done.
        destruct (decide (c = x)) as [<-|Hne].
        -- rewrite lookup_insert_eq in Hx. injection Hx as <-. simpl.
           rewrite multiplicity_disj_union. lia.
        -- rewrite lookup_insert_ne in Hx by done.
           destruct (exact_node _ _ _ _ Hc Hx) as (Hx1 & Hx2).
           split; [|done]. rewrite Hx1, !multiplicity_disj_union.
           rewrite multiplicity_singleton_ne by done. lia.
    + rewrite dom_insert_L. apply elem_of_dom_2 in Hn. set_solver.
    + apply released_set_ref_count; [done|lia].
    + intros Zm HZ. simpl. rewrite (lookup_union_Some_l _ _ _ _ Hn).
      rewrite Hw. fold n1. rewrite decide_False by (subst n1; simpl; lia).
      by rewrite insert_union_l.
Qed.

Lemma exact_incref (L : gmap loc IRNode) R l n :
  exact L R → L !! l = Some n → ref_count n < INT_MAX →
  incref (Some l) L = Ok (tt, <[l := set_ref_count (ref_count n + 1) n]> L) ∧
  exact (<[l := set_ref_count (ref_count n + 1) n]> L) ({[+ l +]} ⊎ R).
Proof.
  intros He Hn Hmax. destruct (exact_node _ _ _ _ He Hn) as (Hcnt & Hpos & _).
  split.
  - simpl. rewrite Hn, wrap_int_id; [done|]. unfold INT_MIN, INT_MAX in *. lia.
  - apply exact_intro.
    + intros x Hx. rewrite heap_refs_set_ref_count in Hx by done.
      apply lookup_insert_is_Some'.
      destruct (decide (l = x)) as [<-|Hne]; [by left|right].
      apply (exact_ref _ _ x He). multiset_solver.
    + intros x nx Hx. rewrite heap_refs_set_ref_count by done.
      destruct (decide (l = x)) as [<-|Hne].
      * rewrite lookup_insert_eq in Hx. injection Hx as <-. simpl.
        rewrite !multiplicity_disj_union, multiplicity_singleton_eq in *. lia.
      * rewrite lookup_insert_ne in Hx by done.
        destruct (exact_node _ _ _ _ He Hx) as (Hx1 & Hx2).
        split; [|done]. rewrite Hx1, !multiplicity_disj_union.
        rewrite multiplicity_singleton_ne by done. lia.
Qed.

(** ** Reachability *)

Lemma elem_of_heap_refs (σ : gmap loc IRNode) x :
  x ∈ heap_refs σ ↔ ∃ p n, σ !! p = Some n ∧ x ∈ node_refs n.
Proof.
  unfold heap_refs. induction σ as [|p n σ Hp IH] using map_ind.
  - rewrite refs_of_empty. split; [multiset_solver|].
    intros (p & n & Hp & _). by rewrite lookup_empty in Hp.
  - rewrite refs_of_insert by done. rewrite gmultiset_elem_of_disj_union, IH.
    split.
    + intros [Hx|(q & nq & Hq & Hx)].
      * exists p, n. by rewrite lookup_insert_eq.
      * exists q, nq. split; [|done]. rewrite lookup_insert_ne; [done|].
        intros <-. congruence.
    + intros (q & nq & Hq & Hx). destruct (decide (p = q)) as [<-|Hne].
      * rewrite lookup_insert_eq in Hq. injection Hq as <-. by left.
      * rewrite lookup_insert_ne in Hq by done. right. by exists q, nq.
Qed.

Lemma ranked_lookup rank (σ : gmap loc IRNode) p n c :
  ranked rank σ → σ !! p = Some n → c ∈ node_refs n → (rank c < rank p)%nat.
Proof.
  intros Hr Hp Hc. apply (Hr p n Hp c). by apply gmultiset_elem_of_dom.
Qed.

Lemma ranked_intro rank (σ : gmap loc IRNode) :
  (∀ p n c, σ !! p = Some n → c ∈ node_refs n → (rank c < rank p)%nat) →
  ranked rank σ.
Proof.
  intros H p n Hp c Hc. apply (H p n c Hp). by apply gmultiset_elem_of_dom.
Qed.

Lemma ranked_same_fields rank σ σ' :
  same_fields σ σ' → ranked rank σ → ranked rank σ'.
Proof.
  intros Hf Hr. apply ranked_intro. intros p n' c Hp Hc.
  destruct (Hf p n' Hp) as (n & Hn & E).
  apply (ranked_lookup rank σ p n c Hr Hn). unfold node_refs in *. by rewrite E.
Qed.

Lemma rank_bound rank (σ : gmap loc IRNode) :
  ∃ B, ∀ x, is_Some (σ !! x) → (rank x < B)%nat.
Proof.
  induction σ as [|p n σ Hp [B IH]] using map_ind.
  - exists 0%nat. intros x [? Hx]. by rewrite lookup_empty in Hx.
  - exists (S (Nat.max B (rank p))). intros x Hx.
    apply lookup_insert_is_Some' in Hx as [<-|Hx]; [lia|].
    specialize (IH x Hx). lia.
Qed.

(** With exact counts and no cycle, whatever is allocated is reachable
    from the references [R]. *)
Lemma exact_reachable (σ : gmap loc IRNode) R x :
  exact σ R → acyclic σ → is_Some (σ !! x) → reachable σ R x.
Proof.
  intros He [rank Hr]. destruct (rank_bound rank σ) as [B HB].
  remember (B - rank x)%nat as k eqn:Hk. revert x Hk.
  induction k as [k IH] using lt_wf_ind. intros x Hk [n Hn].
  destruct (exact_node _ _ _ _ He Hn) as (Hcnt & Hpos & _).
  assert (x ∈ heap_refs σ ⊎ R) as Hx by (rewrite elem_of_multiplicity; lia).
  apply gmultiset_elem_of_disj_union in Hx as [Hx|Hx]; [|by apply reach_root].
  apply elem_of_heap_refs in Hx as (p & np & Hp & Hx).
  pose proof (ranked_lookup _ _ _ _ _ Hr Hp Hx) as Hlt.
  assert (rank p < B)%nat by (apply HB; by eexists).
  apply (reach_member σ R p np x); [|done..].
  apply (IH (B - rank p)%nat); [lia|done|by eexists].
Qed.

(** With exact counts nothing reachable is missing. *)
Lemma reachable_allocated (σ : gmap loc IRNode) R x :
  exact σ R → reachable σ R x → is_Some (σ !! x).
Proof.
  intros He. induction 1 as [l Hl|p n c _ _ Hp Hc].
  - apply (exact_ref _ _ _ He). multiset_solver.
  - apply (exact_ref _ _ _ He). apply gmultiset_elem_of_disj_union. left.
    apply elem_of_heap_refs. by exists p, n.
Qed.

Lemma reachable_same_fields σ σ' R x :
  same_fields σ σ' → reachable σ' R x → reachable σ R x.
Proof.
  intros Hf. induction 1 as [l Hl|p n' c _ IH Hp Hc]; [by apply reach_root|].
  destruct (Hf p n' Hp) as (n & Hn & E).
  apply (reach_member σ R p n c IH Hn). unfold node_refs in *. by rewrite E.
Qed.

(** Reachable in [σ] from [R] and kept: the nodes of the smaller store
    [σ'], whose counts are exact for [R]. *)
Lemma reachable_kept σ σ' R x :
  same_fields σ σ' → exact σ' R → reachable σ R x → reachable σ' R x.
Proof.
  intros Hf He. induction 1 as [l Hl|p n c _ IH Hp Hc]; [by apply reach_root|].
  destruct (reachable_allocated _ _ _ He IH) as [n' Hn'].
  destruct (Hf p n' Hn') as (n0 & Hn0 & E).
  apply (reach_member σ' R p n' c IH Hn'). unfold node_refs in *.
  rewrite <-E. congruence.
Qed.

Lemma not_reachable_empty σ x : ¬ reachable σ ∅ x.
Proof. induction 1 as [l Hl|]; [multiset_solver|done]. Qed.

(** ** Exact counts are kept *)

Lemma copy_handles_exact hs :
  ∀ (σ : gmap loc IRNode) R σ',
    exact σ R → headroom σ hs → copy_handles hs σ = Ok (tt, σ') →
    exact σ' (handle_refs hs ⊎ R) ∧ dom σ' = dom σ ∧ same_fields σ σ'.
Proof.
  induction hs as [|h hs IH]; intros σ R σ' Hc Hr H.
  - injection H as <-. split_and!; [|done|apply same_fields_refl].
    assert (handle_refs [] = ∅) as -> by done. by rewrite (left_id ∅ _).
  - rewrite handle_refs_cons. destruct h as [l|].
    + simpl in H. apply bind_inv in H as ([] & σ1 & Hi & H).
      simpl in Hi. destruct (σ !! l) as [n|] eqn:Hn; [|done].
      destruct (Hr l n) as [H0 Hmax]; [by left|done|]. simpl in Hmax.
      destruct (exact_incref σ R l n Hc Hn) as [Hi' Hc1]; [lia|].
      simpl in Hi'. rewrite Hn in Hi'. rewrite Hi' in Hi.
      injection Hi as <-.
      assert (headroom (<[l := set_ref_count (ref_count n + 1) n]> σ) hs) as Hr1.
      { intros l' n' Hin Hn'. destruct (decide (l = l')) as [<-|Hne].
        - rewrite lookup_insert_eq in Hn'. injection Hn' as <-. simpl. lia.
        - rewrite lookup_insert_ne in Hn' by done.
          destruct (Hr l' n') as [? ?]; [by right|done|]. simpl in *. lia. }
      destruct (IH _ _ σ' Hc1 Hr1 H) as (Hc' & Hd' & Hf').
      rewrite handle_refs_Some. split_and!.
      * assert ({[+ l +]} ⊎ handle_refs hs ⊎ R
                = handle_refs hs ⊎ ({[+ l +]} ⊎ R)) as -> by multiset_solver.
        done.
      * rewrite Hd', dom_insert_L. apply elem_of_dom_2 in Hn. set_solver.
      * eapply same_fields_trans; [|exact Hf'].
        by apply same_fields_set_ref_count.
    + simpl in H. unfold bind in H. simpl in H.
      rewrite handle_refs_None, (left_id ∅ _). apply IH; [done| |done].
      intros l' n' Hin Hn'. destruct (Hr l' n') as [? ?]; [by right|done|].
      simpl in *. lia.
Qed.

(** [Expr x(new ...)] on a tidy state. *)
Lemma IRHandle_ctor_node_tidy c s l σ' x :
  tidy s → vars s !! x = None →
  headroom (heap s) (members (node_of c)) →
  construct c (heap s) = Ok (l, σ') →
  ∃ s', IRHandle_ctor_node x (Some l) (MkState σ' (vars s)) = Ok s' ∧
        tidy s' ∧ vars s' = <[x := Some l]> (vars s) ∧
        heap s !! l = None ∧
        heap s' !! l = Some (MkNode 1 (node_of c)).
Proof.
  intros [He [rank Hr]] Hx Hroom H.
  apply construct_copy_handles in H as (σ1 & Hcp & -> & ->).
  destruct (copy_handles_exact _ _ _ _ He Hroom Hcp) as (He1 & Hd1 & Hf1).
  pose proof (is_fresh (dom σ1)) as Hf. set (l := fresh (dom σ1)) in *.
  assert (σ1 !! l = None) as Hl1 by by apply not_elem_of_dom.
  set (d := node_of c) in *.
  unfold IRHandle_ctor_node. simpl. rewrite lookup_insert_eq. simpl.
  rewrite insert_insert_eq. eexists. split; [done|]. simpl.
  assert (wrap_int (0 + 1) = 1) as -> by done.
  assert (set_ref_count 1 (MkNode 0 d) = MkNode 1 d) as -> by done.
  assert (heap_refs (<[l := MkNode 1 d]> σ1) ⊎ var_refs (<[x := Some l]> (vars s))
          = {[+ l +]} ⊎ (heap_refs σ1 ⊎ (handle_refs (members d) ⊎ var_refs (vars s))))
    as HE.
  { unfold heap_refs. rewrite refs_of_insert by done.
    rewrite var_refs_insert, handle_refs_Some by done.
    unfold node_refs. simpl. multiset_solver. }
  assert (l ∉ heap_refs σ1 ⊎ (handle_refs (members d) ⊎ var_refs (vars s))) as Hout.
  { intros Hin. destruct (exact_ref _ _ _ He1 Hin) as [? ?]. congruence. }
  split_and!; [split| | |apply lookup_insert_eq].
  - apply exact_intro; simpl; rewrite HE.
    + intros y Hy. apply lookup_insert_is_Some'.
      apply gmultiset_elem_of_disj_union in Hy as [Hy|Hy].
      * left. by apply gmultiset_elem_of_singleton in Hy.
      * right. by apply (exact_ref _ _ _ He1).
    + intros y ny Hy. destruct (decide (l = y)) as [<-|Hne].
      * rewrite lookup_insert_eq in Hy. injection Hy as <-. simpl.
        rewrite elem_of_multiplicity in Hout.
        rewrite multiplicity_disj_union, multiplicity_singleton_eq.
        unfold INT_MAX. lia.
      * rewrite lookup_insert_ne in Hy by done.
        destruct (exact_node _ _ _ _ He1 Hy) as (Hy1 & Hy2). split; [|done].
        rewrite Hy1, (multiplicity_disj_union {[+ l +]}).
        rewrite multiplicity_singleton_ne by done. lia.
  - destruct (rank_bound rank σ1) as [B HB].
    exists (λ y, if decide (y = l) then B else rank y). simpl.
    pose proof (ranked_same_fields rank _ _ Hf1 Hr) as Hr1.
    apply ranked_intro. intros p n k Hp Hk.
    assert (is_Some (σ1 !! k)) as Hk1.
    { apply (exact_ref _ _ _ He1). destruct (decide (l = p)) as [<-|Hne].
      - rewrite lookup_insert_eq in Hp. injection Hp as <-.
        unfold node_refs in Hk. simpl in Hk. multiset_solver.
      - rewrite lookup_insert_ne in Hp by done.
        apply gmultiset_elem_of_disj_union. left.
        apply elem_of_heap_refs. by exists p, n. }
    assert (k ≠ l) as Hkl by (intros ->; destruct Hk1; congruence).
    rewrite (decide_False (P := k = l)) by done.
    destruct (decide (p = l)) as [->|Hne]; [by apply HB|].
    rewrite lookup_insert_ne in Hp by done.
    by apply (ranked_lookup rank σ1 p n k).
  - done.
  - apply not_elem_of_dom. by rewrite <-Hd1.
Qed.

Lemma var_refs_delete_None (vs : gmap string (option loc)) h :
  vs !! h = Some None → var_refs (delete h vs) = var_refs vs.
Proof.
  intros Hh. by rewrite (var_refs_delete vs h None Hh), handle_refs_None,
    (left_id ∅ _).
Qed.

Lemma acyclic_same_fields σ σ' : same_fields σ σ' → acyclic σ → acyclic σ'.
Proof. intros Hf [rank Hr]. exists rank. by eapply ranked_same_fields. Qed.

(** Destroying a handle object of a tidy state. *)
Lemma IRHandle_dtor_tidy s h node :
  tidy s → vars s !! h = Some node →
  ∃ s', IRHandle_dtor h s = Ok s' ∧ tidy s' ∧
        vars s' = delete h (vars s) ∧ released (heap s) (heap s').
Proof.
  intros [He Ha] Hh. unfold IRHandle_dtor. rewrite Hh.
  destruct node as [l|].
  - rewrite (var_refs_delete _ _ _ Hh), handle_refs_Some in He.
    destruct (exact_ref _ _ l He) as [n Hn]; [multiset_solver|].
    destruct (decref_exact (enough (heap s)) _ _ l n He Hn)
      as (L' & node' & He' & Hd' & Hf' & _ & _ & Hrun).
    { unfold enough. lia. }
    specialize (Hrun ∅ (map_disjoint_empty_l _)).
    rewrite !(right_id ∅ _) in Hrun. rewrite Hrun. simpl.
    eexists. split; [done|]. simpl. split_and!; [split| |]; try done.
    simpl. eapply acyclic_same_fields; [|exact Ha].
    by apply released_same_fields.
  - simpl. eexists. split; [done|]. simpl.
    split_and!; [split| |apply released_refl]; try done.
    simpl. by rewrite var_refs_delete_None.
Qed.

Lemma tidy_intro s rank :
  exact (heap s) (var_refs (vars s)) → ranked rank (heap s) → tidy s.
Proof. intros He Hr. split; [done|by exists rank]. Qed.

Lemma shared_state_tidy : tidy shared_state.
Proof.
  apply (tidy_intro _ Pos.to_nat).
  - apply (bool_decide_eq_true_1 (exact _ _)). vm_compute. reflexivity.
  - apply (bool_decide_eq_true_1 (ranked _ _)). vm_compute. reflexivity.
Qed.

Lemma add_state_tidy : tidy add_state.
Proof.
  apply (tidy_intro _ Pos.to_nat).
  - apply (bool_decide_eq_true_1 (exact _ _)). vm_compute. reflexivity.
  - apply (bool_decide_eq_true_1 (ranked _ _)). vm_compute. reflexivity.
Qed.

Lemma elem_of_handle_refs (hs : list (option loc)) c :
  c ∈ handle_refs hs ↔ Some c ∈ hs.
Proof.
  unfold handle_refs. rewrite elem_of_list_to_set_disj, list_elem_of_omap.
  split; [intros (h & Hin & E); simpl in E; by subst|].
  intros Hin. by exists (Some c).
Qed.

Lemma heap_refs_fields (σ σ' : gmap loc IRNode) :
  fields <$> σ = fields <$> σ' → heap_refs σ = heap_refs σ'.
Proof.
  assert (∀ τ : gmap loc IRNode,
            heap_refs τ = refs_of (λ d, handle_refs (members d)) (fields <$> τ))
    as Hfm.
  { intros τ. unfold heap_refs.
    induction τ as [|p n τ Hp IH] using map_ind.
    - by rewrite fmap_empty, !refs_of_empty.
    - rewrite fmap_insert, !refs_of_insert, IH; [done| |done].
      by rewrite lookup_fmap, Hp. }
  intros E. by rewrite !Hfm, E.
Qed.

(** Exact counts are determined by the nodes' members and the
    references from outside. *)
Lemma exact_unique (σ σ' : gmap loc IRNode) R :
  exact σ R → exact σ' R →
  (∀ y, fields <$> (σ !! y) = fields <$> (σ' !! y)) → σ = σ'.
Proof.
  intros He He' Hf.
  assert (heap_refs σ = heap_refs σ') as HE.
  { apply heap_refs_fields. apply map_eq. intros y.
    by rewrite !lookup_fmap. }
  apply map_eq. intros y. specialize (Hf y).
  destruct (σ !! y) as [n|] eqn:Hn, (σ' !! y) as [n'|] eqn:Hn';
    simpl in Hf; try done.
  injection Hf as Hf.
  destruct (exact_node _ _ _ _ He Hn) as [Hc _].
  destruct (exact_node _ _ _ _ He' Hn') as [Hc' _].
  rewrite HE in Hc. destruct n, n'. simpl in *. f_equal. congruence.
Qed.

Lemma reachable_mono σ σ' R x :
  (∀ p n, σ !! p = Some n → ∃ n', σ' !! p = Some n' ∧ fields n' = fields n) →
  reachable σ R x → reachable σ' R x.
Proof.
  intros Hk. induction 1 as [l Hl|p n c _ IH Hp Hc]; [by apply reach_root|].
  destruct (Hk p n Hp) as (n' & Hn' & E).
  apply (reach_member σ' R p n' c IH Hn'). unfold node_refs in *. by rewrite E.
Qed.

(** ** Reading a handle object *)

Lemma read_node_Ok s o node :
  read_node s o = Ok node →
  (∃ x, o = InScope x ∧ vars s !! x = Some node) ∨
  (∃ p i np, o = Member p i ∧ heap s !! p = Some np ∧
             members (fields np) !! i = Some node).
Proof.
  destruct o as [x|p i]; simpl.
  - destruct (vars s !! x) as [n|] eqn:E; [|done]. intros [= <-].
    left. by exists x.
  - destruct (heap s !! p) as [np|] eqn:E; [|done].
    destruct (members (fields np) !! i) as [h|] eqn:E'; [|done].
    intros [= <-]. right. by exists p, i, np.
Qed.

Lemma member_ref (σ : gmap loc IRNode) p np i m :
  σ !! p = Some np → members (fields np) !! i = Some (Some m) →
  m ∈ heap_refs σ.
Proof.
  intros Hp Hi. apply elem_of_heap_refs. exists p, np. split; [done|].
  apply elem_of_handle_refs. by eapply list_elem_of_lookup_2.
Qed.

Lemma read_node_ref s o l :
  read_node s o = Ok (Some l) → l ∈ heap_refs (heap s) ⊎ var_refs (vars s).
Proof.
  intros H. apply read_node_Ok in H as [(x & -> & Hx)|(p & i & np & -> & Hp & Hi)].
  - rewrite (var_refs_delete _ _ _ Hx), handle_refs_Some. multiset_solver.
  - apply gmultiset_elem_of_disj_union. left. by eapply member_ref.
Qed.

(** ** The two halves of an assignment *)

(** The [decref] of a handle object that holds [node]. *)
Lemma decref_handle_exact (L : gmap loc IRNode) R node :
  exact L (handle_refs [node] ⊎ R) →
  ∃ L' node',
    decref (enough L) node L = Ok (node', L') ∧ exact L' R ∧ released L L' ∧
    (∀ l n, node = Some l → L !! l = Some n →
       (ref_count n = 1 → node' = None ∧ L' !! l = None) ∧
       (ref_count n ≠ 1 →
          node' = Some l ∧ L' = <[l := set_ref_count (ref_count n - 1) n]> L)) ∧
    (node = None → node' = None ∧ L' = L).
Proof.
  intros He. destruct node as [l|].
  - rewrite handle_refs_Some in He.
    destruct (exact_ref _ _ l He) as [n Hn]; [multiset_solver|].
    destruct (decref_exact (enough L) _ _ l n He Hn)
      as (L' & node' & He' & Hd' & Hf' & H1 & H2 & Hrun).
    { unfold enough. lia. }
    specialize (Hrun ∅ (map_disjoint_empty_l _)).
    rewrite !(right_id ∅ _) in Hrun.
    exists L', node'. split_and!; [done..| |done].
    intros l' n' [= <-] Hn'. rewrite Hn in Hn'. injection Hn' as <-. done.
  - rewrite handle_refs_None, (left_id ∅ _) in He. exists L, None.
    split_and!; [done|done|apply released_refl|done|done].
Qed.

(** The [incref] of a handle object that has been given [new]. *)
Lemma incref_handle_exact (L : gmap loc IRNode) R new :
  exact L R →
  (∀ m, new = Some m → ∃ nm, L !! m = Some nm ∧ ref_count nm < INT_MAX) →
  ∃ L',
    incref new L = Ok (tt, L') ∧ exact L' (handle_refs [new] ⊎ R) ∧
    same_fields L L' ∧
    (∀ m nm, new = Some m → L !! m = Some nm →
       L' = <[m := set_ref_count (ref_count nm + 1) nm]> L) ∧
    (new = None → L' = L).
Proof.
  intros He Hroom. destruct new as [m|].
  - destruct (Hroom m eq_refl) as (nm & Hnm & Hmax).
    destruct (exact_incref _ _ m nm He Hnm Hmax) as [Hi He'].
    eexists. split; [exact Hi|]. rewrite handle_refs_Some.
    split_and!; [done| | |done].
    + by apply same_fields_set_ref_count.
    + intros m' nm' [= <-] Hnm'. congruence.
  - exists L. rewrite handle_refs_None, (left_id ∅ _).
    split_and!; [done|done|apply same_fields_refl|done|done].
Qed.

Lemma IRHandle_assign_eq s h o node node1 σ1 n σ2 :
  vars s !! h = Some node →
  decref (enough (heap s)) node (heap s) = Ok (node1, σ1) →
  read_node (MkState σ1 (<[h := node1]> (vars s))) o = Ok n →
  incref n σ1 = Ok (tt, σ2) →
  IRHandle_assign h o s = Ok (MkState σ2 (<[h := n]> (vars s))).
Proof.
  intros Hh Hd Hr Hi. unfold IRHandle_assign. rewrite Hh, Hd.
  cbn [result_bind fst snd]. rewrite Hr. cbn [result_bind heap vars].
  rewrite Hi. cbn [result_bind fst snd]. by rewrite insert_insert_eq.
Qed.

(** ** The counts after a release *)

Lemma same_fields_dom σ σ' : same_fields σ σ' → dom σ' ⊆ dom σ.
Proof.
  intros Hf x Hx. apply elem_of_dom in Hx as [n' Hx].
  destruct (Hf x n' Hx) as (n & Hn & _). by apply elem_of_dom_2 in Hn.
Qed.

Lemma heap_refs_deallocated (σ σ' : gmap loc IRNode) :
  same_fields σ σ' →
  heap_refs σ = heap_refs σ' ⊎ heap_refs (deallocated σ σ').
Proof.
  intros Hf. unfold deallocated.
  set (P := λ kn : loc * IRNode, σ' !! kn.1 = None).
  rewrite <-(map_filter_union_complement P σ) at 1.
  unfold heap_refs.
  rewrite refs_of_union by apply map_disjoint_filter_complement.
  rewrite (comm (⊎)). f_equal.
  apply heap_refs_fields. apply map_eq. intros y. rewrite !lookup_fmap.
  destruct (σ' !! y) as [n'|] eqn:Hy.
  - destruct (Hf y n' Hy) as (n & Hn & E).
    rewrite (map_lookup_filter_Some_2 _ _ y n); [simpl; by rewrite E|done|].
    unfold P. simpl. congruence.
  - rewrite (proj2 (map_lookup_filter_None _ _ y)); [done|].
    right. intros x _ HP. apply HP. exact Hy.
Qed.

(** Exact counts before and after, over the same members: the counts
    have moved as [recounted] says. *)
Lemma exact_recounted (σ σ' : gmap loc IRNode) X Y R :
  exact σ (X ⊎ R) → exact σ' (Y ⊎ R) → same_fields σ σ' →
  recounted X Y σ σ'.
Proof.
  intros He He' Hf x n Hn. cbv zeta.
  destruct (exact_node _ _ _ _ He Hn) as [Hc _].
  rewrite (heap_refs_deallocated σ σ' Hf) in Hc.
  rewrite !multiplicity_disj_union in Hc. rewrite !multiplicity_disj_union.
  destruct (σ' !! x) as [n'|] eqn:Hx.
  - destruct (Hf x n' Hx) as (n0 & Hn0 & E). rewrite Hn in Hn0.
    injection Hn0 as <-.
    destruct (exact_node _ _ _ _ He' Hx) as [Hc' [Hpos _]].
    rewrite !multiplicity_disj_union in Hc'.
    rewrite decide_False by lia. f_equal.
    destruct n, n'. unfold set_ref_count. simpl in *. f_equal; [lia|done].
  - assert (x ∉ heap_refs σ' ⊎ (Y ⊎ R)) as Hout.
    { intros Hin. destruct (exact_ref _ _ _ He' Hin) as [? ?]. congruence. }
    rewrite elem_of_multiplicity, !multiplicity_disj_union in Hout.
    rewrite decide_True by lia. done.
Qed.

(** What is allocated after a release is what the remaining references
    reach. *)
Lemma released_allocated (σ σ' : gmap loc IRNode) R x :
  exact σ' R → acyclic σ' → same_fields σ σ' →
  is_Some (σ' !! x) ↔ reachable σ R x.
Proof.
  intros He' Ha' Hf. split.
  - intros Hx. eapply reachable_same_fields; [exact Hf|].
    by apply exact_reachable.
  - intros Hx. apply (reachable_allocated _ _ _ He'). by eapply reachable_kept.
Qed.

(** ** Copying and assigning in a tidy state *)

(** Copy constructing from a handle object, in scope or a member of a
    node, of a tidy state. *)
Lemma IRHandle_ctor_copy_tidy s x o node :
  tidy s → vars s !! x = None → read_node s o = Ok node →
  (∀ l n, node = Some l → heap s !! l = Some n → ref_count n < INT_MAX) →
  ∃ s', IRHandle_ctor_copy x o s = Ok s' ∧ tidy s' ∧
        vars s' = <[x := node]> (vars s) ∧
        (∀ l n, node = Some l → heap s !! l = Some n →
           heap s' = <[l := set_ref_count (ref_count n + 1) n]> (heap s)) ∧
        (node = None → heap s' = heap s).
Proof.
  intros [He Ha] Hx Ho Hroom.
  destruct (incref_handle_exact (heap s) _ node He)
    as (L' & Hi & He' & Hf & H1 & H2).
  { intros m ->. destruct (exact_ref _ _ m He) as [nm Hnm];
      [by eapply read_node_ref|].
    exists nm. split; [done|]. by eapply Hroom. }
  exists (MkState L' (<[x := node]> (vars s))).
  unfold IRHandle_ctor_copy. rewrite Ho.
  unfold result_bind at 1, IRHandle_ctor_node. rewrite Hi.
  split_and!; [done| |done..].
  split; simpl.
  - by rewrite var_refs_insert.
  - by eapply acyclic_same_fields.
Qed.

(** The first half of [h = o] for another handle object [o], in scope
    or a member of a node that the other handle objects still reach:
    after the release of the old referent, [o] holds what it held. *)
Lemma IRHandle_assign_release s h o node new :
  tidy s → vars s !! h = Some node → o ≠ InScope h →
  read_node s o = Ok new →
  (∀ p i, o = Member p i →
     reachable (heap s) (var_refs (delete h (vars s))) p) →
  ∃ σ1 node1,
    decref (enough (heap s)) node (heap s) = Ok (node1, σ1) ∧
    exact σ1 (var_refs (delete h (vars s))) ∧ released (heap s) σ1 ∧
    (∀ l n, node = Some l → heap s !! l = Some n →
       (ref_count n = 1 → σ1 !! l = None) ∧
       (ref_count n ≠ 1 →
          σ1 = <[l := set_ref_count (ref_count n - 1) n]> (heap s))) ∧
    (node = None → σ1 = heap s) ∧
    read_node (MkState σ1 (<[h := node1]> (vars s))) o = Ok new ∧
    (∀ m, new = Some m → is_Some (σ1 !! m)).
Proof.
  intros [He Ha] Hh Hne Ho Hreach.
  rewrite (var_refs_delete _ _ _ Hh) in He.
  set (R0 := var_refs (delete h (vars s))) in *.
  destruct (decref_handle_exact (heap s) R0 node He)
    as (σ1 & node1 & Hrun & He1 & Hrel & H1 & H0).
  pose proof (released_same_fields _ _ Hrel) as Hf1.
  assert (acyclic σ1) as Ha1 by (by eapply acyclic_same_fields).
  exists σ1, node1. split_and!; [done..| | | |].
  - intros l n -> Hn. destruct (H1 l n eq_refl Hn) as [Ha' Hb']. split.
    + intros E. by destruct (Ha' E).
    + intros E. by destruct (Hb' E).
  - intros ->. by destruct (H0 eq_refl).
  - apply read_node_Ok in Ho as [(x & -> & Hx)|(p & i & np & -> & Hp & Hi)].
    + assert (x ≠ h) as Hxh by congruence.
      simpl. by rewrite lookup_insert_ne, Hx by done.
    + destruct (proj2 (released_allocated _ _ R0 p He1 Ha1 Hf1)) as [np1 Hp1];
        [by eapply Hreach|].
      destruct (Hf1 p np1 Hp1) as (np0 & Hp0 & E). rewrite Hp in Hp0.
      injection Hp0 as <-. simpl. by rewrite Hp1, <-E, Hi.
  - intros m ->. apply (exact_ref _ _ m He1).
    apply read_node_Ok in Ho as [(x & -> & Hx)|(p & i & np & -> & Hp & Hi)].
    + assert (x ≠ h) as Hxh by congruence. subst R0.
      rewrite (var_refs_delete _ x (Some m)), handle_refs_Some
        by (by rewrite lookup_delete_ne).
      multiset_solver.
    + destruct (proj2 (released_allocated _ _ R0 p He1 Ha1 Hf1)) as [np1 Hp1];
        [by eapply Hreach|].
      destruct (Hf1 p np1 Hp1) as (np0 & Hp0 & E). rewrite Hp in Hp0.
      injection Hp0 as <-. apply gmultiset_elem_of_disj_union. left.
      apply (member_ref σ1 p np1 i m Hp1). by rewrite <-E.
Qed.

(** Such an assignment returns. *)
Lemma IRHandle_assign_returns s h o node new :
  tidy s → vars s !! h = Some node → o ≠ InScope h →
  read_node s o = Ok new →
  (∀ p i, o = Member p i →
     reachable (heap s) (var_refs (delete h (vars s))) p) →
  ∃ s', IRHandle_assign h o s = Ok s' ∧ vars s' = <[h := new]> (vars s).
Proof.
  intros Ht Hh Hne Ho Hreach.
  destruct (IRHandle_assign_release s h o node new Ht Hh Hne Ho Hreach)
    as (σ1 & node1 & Hrun & _ & _ & _ & _ & Ho1 & Hnew).
  assert (∃ σ2, incref new σ1 = Ok (tt, σ2)) as [σ2 Hi].
  { destruct new as [m|]; [|by eexists].
    destruct (Hnew m eq_refl) as [nm Hnm]. simpl. rewrite Hnm. by eexists. }
  eexists. split; [by apply (IRHandle_assign_eq s h o node node1 σ1 new σ2)|done].
Qed.

(** With room in the [int] it leaves a tidy state. *)
Lemma IRHandle_assign_tidy s h o node new :
  tidy s → vars s !! h = Some node → o ≠ InScope h →
  read_node s o = Ok new →
  (∀ p i, o = Member p i →
     reachable (heap s) (var_refs (delete h (vars s))) p) →
  (∀ m nm, new = Some m → heap s !! m = Some nm → ref_count nm < INT_MAX) →
  ∃ s' σ1,
    IRHandle_assign h o s = Ok s' ∧ tidy s' ∧
    vars s' = <[h := new]> (vars s) ∧
    recounted (handle_refs [node]) (handle_refs [new]) (heap s) (heap s') ∧
    dom (heap s') ⊆ dom (heap s) ∧
    (∀ l n, node = Some l → heap s !! l = Some n →
       (ref_count n = 1 → σ1 !! l = None) ∧
       (ref_count n ≠ 1 →
          σ1 = <[l := set_ref_count (ref_count n - 1) n]> (heap s))) ∧
    (node = None → σ1 = heap s) ∧
    (∀ m, new = Some m →
       ∃ nm, σ1 !! m = Some nm ∧
             heap s' = <[m := set_ref_count (ref_count nm + 1) nm]> σ1) ∧
    (new = None → heap s' = σ1).
Proof.
  intros Ht Hh Hne Ho Hreach Hroom.
  destruct (IRHandle_assign_release s h o node new Ht Hh Hne Ho Hreach)
    as (σ1 & node1 & Hrun & He1 & Hrel & H1 & H0 & Ho1 & Hnew).
  destruct Ht as [He Ha]. rewrite (var_refs_delete _ _ _ Hh) in He.
  set (R0 := var_refs (delete h (vars s))) in *.
  pose proof (released_same_fields _ _ Hrel) as Hf1.
  destruct (incref_handle_exact σ1 R0 new He1) as (σ2 & Hi & He2 & Hf2 & Hi1 & Hi0).
  { intros m ->. destruct (Hnew m eq_refl) as [nm Hnm].
    exists nm. split; [done|].
    destruct (Hrel m nm Hnm) as (n0 & Hn0 & _ & Hle).
    specialize (Hroom m n0 eq_refl Hn0). lia. }
  exists (MkState σ2 (<[h := new]> (vars s))), σ1.
  assert (same_fields (heap s) σ2) as Hf by (by eapply same_fields_trans).
  split_and!; [| | | | |done|done| |done].
  - by apply (IRHandle_assign_eq s h o node node1 σ1 new σ2).
  - split; simpl.
    + by rewrite var_refs_insert_over.
    + by eapply acyclic_same_fields.
  - done.
  - by apply (exact_recounted _ _ _ _ R0).
  - by apply same_fields_dom.
  - intros m ->. destruct (Hnew m eq_refl) as [nm Hnm].
    exists nm. split; [done|]. by apply (Hi1 m nm).
Qed.

(** Assigning to [h] from a handle member of a node that only [h] keeps
    alive, or that is not allocated at all: [decref] has deleted the
    node by the time the member is read. *)
Lemma IRHandle_assign_freed s h p i node :
  tidy s → vars s !! h = Some node →
  ¬ reachable (heap s) (var_refs (delete h (vars s))) p →
  IRHandle_assign h (Member p i) s = Undefined.
Proof.
  intros [He Ha] Hh Hnr. rewrite (var_refs_delete _ _ _ Hh) in He.
  destruct (decref_handle_exact (heap s) _ node He)
    as (σ1 & node1 & Hrun & He1 & Hrel & _).
  pose proof (released_same_fields _ _ Hrel) as Hf1.
  assert (σ1 !! p = None) as Hp.
  { apply eq_None_not_Some. intros Hs. apply Hnr.
    apply (released_allocated _ σ1); [done| |done..].
    by eapply acyclic_same_fields. }
  unfold IRHandle_assign. rewrite Hh, Hrun.
  cbn [result_bind fst snd read_node heap]. by rewrite Hp.
Qed.

(** Whether the handle objects other than [h] reach a node can be read
    off the free store that the release of [h] leaves behind. *)
Lemma reachable_without_dec s h node p :
  tidy s → vars s !! h = Some node →
  reachable (heap s) (var_refs (delete h (vars s))) p ∨
  ¬ reachable (heap s) (var_refs (delete h (vars s))) p.
Proof.
  intros [He Ha] Hh. rewrite (var_refs_delete _ _ _ Hh) in He.
  destruct (decref_handle_exact (heap s) _ node He)
    as (σ1 & node1 & Hrun & He1 & Hrel & _).
  pose proof (released_same_fields _ _ Hrel) as Hf1.
  assert (acyclic σ1) as Ha1 by (by eapply acyclic_same_fields).
  destruct (σ1 !! p) as [np|] eqn:Hp.
  - left. apply (released_allocated _ σ1); [done..|by eexists].
  - right. intros Hr. apply (released_allocated _ σ1) in Hr; [|done..].
    destruct Hr as [? ?]. congruence.
Qed.

(** A node that the destruction of [h] has deallocated was reached by
    no other handle object. *)
Lemma not_reachable_after_dtor s h node s' p :
  tidy s → vars s !! h = Some node → IRHandle_dtor h s = Ok s' →
  heap s' !! p = None →
  ¬ reachable (heap s) (var_refs (delete h (vars s))) p.
Proof.
  intros Ht Hh Hd Hp Hr.
  destruct (IRHandle_dtor_tidy s h node Ht Hh) as (s'' & Hd' & [He' Ha'] & Hv & Hrel).
  rewrite Hd in Hd'. injection Hd' as <-. rewrite Hv in He'.
  apply (released_allocated _ (heap s')) in Hr;
    [|done|done|by apply released_same_fields].
  destruct Hr as [? ?]. congruence.
Qed.

(** [h = h] in a tidy state. *)
Lemma IRHandle_self_assign_tidy s h node :
  tidy s → vars s !! h = Some node →
  ∃ s' node',
    IRHandle_assign h (InScope h) s = Ok s' ∧ tidy s' ∧
    vars s' = <[h := node']> (vars s) ∧
    recounted (handle_refs [node]) (handle_refs [node']) (heap s) (heap s') ∧
    (∀ l n, node = Some l → heap s !! l = Some n →
       (ref_count n = 1 → node' = None ∧ heap s' !! l = None) ∧
       (ref_count n ≠ 1 → node' = Some l ∧ heap s' = heap s)) ∧
    (node = None → node' = None ∧ heap s' = heap s).
Proof.
  intros [He Ha] Hh. pose proof He as He0.
  rewrite (var_refs_delete _ _ _ Hh) in He.
  set (R0 := var_refs (delete h (vars s))) in *.
  destruct (decref_handle_exact (heap s) R0 node He)
    as (σ1 & node1 & Hrun & He1 & Hrel & H1 & H0).
  pose proof (released_same_fields _ _ Hrel) as Hf1.
  destruct (incref_handle_exact σ1 R0 node1 He1) as (σ2 & Hi & He2 & Hf2 & Hi1 & Hi0).
  { intros m ->. destruct node as [l|]; [|by destruct (H0 eq_refl)].
    destruct (exact_ref _ _ l He) as [n Hn];
      [rewrite handle_refs_Some; multiset_solver|].
    destruct (exact_node _ _ _ _ He Hn) as (_ & _ & Hmax).
    destruct (H1 l n eq_refl Hn) as [Ha' Hb'].
    destruct (decide (ref_count n = 1)) as [E|E]; [by destruct (Ha' E)|].
    destruct (Hb' E) as [[= <-] ->]. eexists. rewrite lookup_insert_eq.
    split; [done|]. simpl. lia. }
  exists (MkState σ2 (<[h := node1]> (vars s))), node1.
  assert (same_fields (heap s) σ2) as Hf by (by eapply same_fields_trans).
  split_and!.
  - apply (IRHandle_assign_eq s h _ node node1 σ1 node1 σ2); [done..| |done].
    simpl. by rewrite lookup_insert_eq.
  - split; simpl.
    + by rewrite var_refs_insert_over.
    + by eapply acyclic_same_fields.
  - done.
  - by apply (exact_recounted _ _ _ _ R0).
  - intros l n -> Hn. destruct (H1 l n eq_refl Hn) as [Ha' Hb']. split.
    + intros E. destruct (Ha' E) as [-> Hl]. split; [done|]. simpl.
      by rewrite (Hi0 eq_refl).
    + intros E. destruct (Hb' E) as [-> ->]. split; [done|]. simpl.
      rewrite (Hi1 l _ eq_refl (lookup_insert_eq _ _ _)).
      rewrite insert_insert_eq. apply insert_id. rewrite Hn. f_equal.
      destruct n as [k d]. unfold set_ref_count. simpl. f_equal. lia.
  - intros ->. destruct (H0 eq_refl) as [-> ->]. split; [done|]. simpl.
    by rewrite (Hi0 eq_refl).
Qed.

(** ** What a constructor does to the counts of the children *)

Lemma copy_handles_counts hs :
  ∀ (σ σ' : gmap loc IRNode),
    headroom σ hs → copy_handles hs σ = Ok (tt, σ') →
    ∀ x n, σ !! x = Some n →
      ∃ n', σ' !! x = Some n' ∧ fields n' = fields n ∧
            ref_count n' = ref_count n + Z.of_nat (multiplicity x (handle_refs hs)).
Proof.
  induction hs as [|h hs IH]; intros σ σ' Hr H x n Hx.
  - injection H as <-. exists n. split_and!; [done..|].
    assert (handle_refs [] = ∅) as -> by done.
    rewrite multiplicity_empty. lia.
  - rewrite handle_refs_cons. destruct h as [l|].
    + simpl in H. apply bind_inv in H as ([] & σ1 & Hi & H).
      unfold incref in Hi. destruct (σ !! l) as [nl|] eqn:Hl; [|done].
      injection Hi as <-.
      destruct (Hr l nl) as [H0 Hmax]; [by left|done|]. simpl in Hmax.
      rewrite (wrap_int_id (ref_count nl + 1)) in H;
        [|unfold INT_MIN, INT_MAX in *; lia].
      assert (headroom (<[l := set_ref_count (ref_count nl + 1) nl]> σ) hs) as Hr1.
      { intros l' n' Hin Hn'. destruct (decide (l = l')) as [<-|Hne].
        - rewrite lookup_insert_eq in Hn'. injection Hn' as <-. simpl. lia.
        - rewrite lookup_insert_ne in Hn' by done.
          destruct (Hr l' n') as [? ?]; [by right|done|]. simpl in *. lia. }
      rewrite handle_refs_Some, multiplicity_disj_union.
      destruct (decide (l = x)) as [<-|Hne].
      * rewrite Hl in Hx. injection Hx as <-.
        destruct (IH _ _ Hr1 H l _ (lookup_insert_eq _ _ _))
          as (n' & Hn' & E & C).
        exists n'. split_and!; [done..|]. simpl in C.
        rewrite multiplicity_singleton_eq. lia.
      * destruct (IH _ _ Hr1 H x n) as (n' & Hn' & E & C).
        { by rewrite lookup_insert_ne. }
        exists n'. split_and!; [done..|].
        rewrite multiplicity_singleton_ne by done. lia.
    + simpl in H. unfold bind in H. simpl in H.
      assert (handle_refs [None] ⊎ handle_refs hs = handle_refs hs) as ->
        by (rewrite handle_refs_None; apply (left_id ∅ _)).
      apply (IH σ); [|done..].
      intros l' n' Hin Hn'. destruct (Hr l' n') as [? ?]; [by right|done|].
      simpl in *. lia.
Qed.

(** * The claims *)

Lemma forallb_defined_None (hs : list (option loc)) :
  None ∈ hs → forallb defined hs = false.
Proof.
  induction hs as [|h hs IH]; intros Hin.
  - by apply elem_of_nil in Hin.
  - apply elem_of_cons in Hin as [<-|Hin]; simpl; [done|].
    rewrite IH by done. apply andb_false_r.
Qed.

Lemma forallb_defined_Forall (hs : list (option loc)) :
  forallb defined hs = true → Forall (λ h, defined h = true) hs.
Proof.
  intros H. apply Forall_forall. intros h Hin.
  rewrite forallb_forall in H. apply H. by apply list_elem_of_In.
Qed.

Lemma sample_heap_live (hs : list (option loc)) :
  Forall (λ h, h = None ∨ h = Some 1%positive ∨ h = Some 2%positive) hs →
  Forall (live_in (dom sample_heap)) hs.
Proof.
  intros H. eapply Forall_impl; [exact H|].
  intros h [->|[->| ->]]; simpl; [done| |];
    apply elem_of_dom; eexists; reflexivity.
Qed.

(** C1: a constructor that is called with one of its required children
    empty (the other handles being usable) is stopped by a failed
    assertion and leaves no node; whenever a constructor does return,
    all required children of the new node are present, the numeric bound
    holds, and the node sits at an address that was not in use. *)
Theorem required_children_enforced (c : New) (σ : gmap loc IRNode) :
  Forall (live_in (dom σ)) (members (node_of c)) →
  (None ∈ spec_required c → ∃ msg, construct c σ = AssertFail msg) ∧
  (∀ l σ', construct c σ = Ok (l, σ') →
     Forall (λ h, defined h = true) (spec_required c) ∧
     spec_bound c = true ∧
     σ !! l = None ∧ σ' !! l = Some (MkNode 0 (node_of c))).
Proof.
  intros Hl. split.
  - intros Hnone. destruct (construct_live c σ Hl) as (σ1 & _ & Hc).
    by rewrite (forallb_defined_None _ Hnone) in Hc.
  - intros l σ' H. apply construct_Ok in H as (Hr & Hb & -> & Hn & _).
    split_and!; [by apply forallb_defined_Forall|done| |done].
    apply not_elem_of_dom, is_fresh.
Qed.

Lemma required_children_enforced_witness :
  Forall (live_in (dom sample_heap))
    (members (node_of (NewAdd sample_Expr (MkExpr None)))) ∧
  ∃ msg, construct (NewAdd sample_Expr (MkExpr None)) sample_heap = AssertFail msg.
Proof.
  assert (Forall (live_in (dom sample_heap))
            (members (node_of (NewAdd sample_Expr (MkExpr None))))) as Hl.
  { apply sample_heap_live. simpl.
    repeat (apply Forall_cons; split; [auto|]). apply Forall_nil_2. }
  split; [exact Hl|].
  apply (proj1 (required_children_enforced _ _ Hl)).
  simpl. apply list_elem_of_In. simpl. auto.
Defined.





(** C3: for a node built by any constructor, [accept] fires exactly one
    operation of the visitor, the one of the constructed kind: a
    recording visitor logs that kind and nothing else, and any visitor
    receives the node's members.  Every kind of the catalogue has such
    an instance. *)
Theorem dispatch_round_trip :
  (∀ c σ l σ', construct c σ = Ok (l, σ') →
     (∀ log, IRHandle_accept recorder (Some l) σ' log
               = Ok (log ++ [kind_of_call c])) ∧
     (∀ V (v : IRVisitor V) st,
        IRHandle_accept v (Some l) σ' st = Ok (IRNode_accept v (node_of c) st))) ∧
  (∀ k, k ∈ all_kinds ∧
        ∃ c l σ', kind_of_call c = k ∧ construct c sample_heap = Ok (l, σ')).
Proof.
  split.
  - intros c σ l σ' H. apply construct_Ok in H as (_ & _ & _ & Hn & _).
    split; intros; simpl; rewrite Hn; simpl; [|done].
    by destruct c.
  - intros k. split.
    + unfold all_kinds. destruct k; set_solver.
    + pose (e := sample_Expr). pose (s := sample_Stmt).
      pose (ty := {| t := Type_Int; bits := 32; width := 1 |}).
      destruct k;
        [ exists (NewIntImm 0) | exists (NewFloatImm 0) | exists (NewCast ty e)
        | exists (NewVar ty "x") | exists (NewAdd e e) | exists (NewSub e e)
        | exists (NewMul e e) | exists (NewDiv e e) | exists (NewMod e e)
        | exists (NewMin e e) | exists (NewMax e e) | exists (NewEQ e e)
        | exists (NewNE e e) | exists (NewLT e e) | exists (NewLE e e)
        | exists (NewGT e e) | exists (NewGE e e) | exists (NewAnd e e)
        | exists (NewOr e e) | exists (NewNot e) | exists (NewSelect e e e)
        | exists (NewLoad ty "buf" e) | exists (NewRamp e e 4)
        | exists (NewCall ty "f" [e] Extern) | exists (NewLet "x" e e)
        | exists (NewLetStmt "x" e s) | exists (NewPrintStmt "p" [e])
        | exists (NewAssertStmt e "m") | exists (NewPipeline "buf" s s s)
        | exists (NewFor "i" e e Parallel s) | exists (NewStore "buf" e e)
        | exists (NewProvide "buf" e [e]) | exists (NewAllocate "buf" ty e s)
        | exists (NewRealize "buf" ty [(e, e)] s) | exists (NewBlock s s) ];
        eexists _, _; (split; [reflexivity|vm_compute; reflexivity]).
Qed.

Lemma dispatch_round_trip_witness :
  construct (NewAdd sample_Expr sample_Expr) sample_heap
    = Ok (3%positive,
          <[3%positive := MkNode 0 (Add sample_Expr sample_Expr)]>
            (<[1%positive := MkNode 3 (IntImm 0)]> sample_heap)) ∧
  IRHandle_accept recorder (Some 3%positive)
    (<[3%positive := MkNode 0 (Add sample_Expr sample_Expr)]>
       (<[1%positive := MkNode 3 (IntImm 0)]> sample_heap)) []
    = Ok [KAdd].
Proof.
  assert (construct (NewAdd sample_Expr sample_Expr) sample_heap
    = Ok (3%positive,
          <[3%positive := MkNode 0 (Add sample_Expr sample_Expr)]>
            (<[1%positive := MkNode 3 (IntImm 0)]> sample_heap))) as H
    by (vm_compute; reflexivity).
  split; [exact H|].
  exact (proj1 (proj1 dispatch_round_trip _ _ _ _ H) []).
Defined.




Lemma incref_keeps_nodes h σ σ' p np :
  incref h σ = Ok (tt, σ') → σ !! p = Some np →
  ∃ np', σ' !! p = Some np' ∧ fields np' = fields np.
Proof.
  destruct h as [l|]; simpl.
  - destruct (σ !! l) as [n|] eqn:Hl; [|done]. intros [= <-] Hp.
    destruct (decide (l = p)) as [<-|Hne].
    + rewrite lookup_insert_eq. eexists. split; [done|]. simpl. congruence.
    + rewrite lookup_insert_ne by done. by exists np.
  - intros [= <-] Hp. by exists np.
Qed.

(** C5, as amended: [sameAs] compares the node pointers and nothing
    else: it holds of two handles exactly if both refer to the same
    node or both are empty.  Two [IntImm] nodes of the same value built
    one after the other, each wrapped in a handle of its own, have equal
    members and handles that are not [sameAs]; a handle object, in
    scope or a member of a node, and a copy of it are [sameAs]. *)
Theorem sameAs_is_identity :
  (∀ h1 h2 : option loc,
     sameAs h1 h2 = true ↔
       (∃ l, h1 = Some l ∧ h2 = Some l) ∨
       (defined h1 = false ∧ defined h2 = false)) ∧
  (∀ (s : state) a b v, a ≠ b →
     ∃ l1 l2 σ1 σ2 s1 s2,
       new_IntImm v (heap s) = Ok (l1, σ1) ∧
       IRHandle_ctor_node a (Some l1) (MkState σ1 (vars s)) = Ok s1 ∧
       new_IntImm v (heap s1) = Ok (l2, σ2) ∧
       IRHandle_ctor_node b (Some l2) (MkState σ2 (vars s1)) = Ok s2 ∧
       vars s2 !! a = Some (Some l1) ∧ vars s2 !! b = Some (Some l2) ∧
       heap s2 !! l1 = Some (MkNode 1 (IntImm v)) ∧
       heap s2 !! l2 = Some (MkNode 1 (IntImm v)) ∧
       sameAs (Some l1) (Some l2) = false) ∧
  (∀ (s s' : state) o x node,
     read_node s o = Ok node → IRHandle_ctor_copy x o s = Ok s' →
     read_node s' o = Ok node ∧ vars s' !! x = Some node ∧
     sameAs node node = true).
Proof.
  split_and!.
  - intros h1 h2. unfold sameAs. rewrite bool_decide_eq_true.
    destruct h1 as [l1|], h2 as [l2|]; simpl; split; try naive_solver.
  - intros s a b v Hab.
    set (l1 := fresh (dom (heap s))).
    set (σ1 := <[l1 := MkNode 0 (IntImm v)]> (heap s)).
    set (σ1' := <[l1 := MkNode 1 (IntImm v)]> σ1).
    set (l2 := fresh (dom σ1')).
    set (σ2 := <[l2 := MkNode 0 (IntImm v)]> σ1').
    assert (l1 ≠ l2) as Hl.
    { intros E. pose proof (is_fresh (dom σ1')) as Hf. fold l2 in Hf.
      rewrite <-E in Hf. apply Hf. subst σ1' σ1. rewrite !dom_insert_L.
      set_solver. }
    exists l1, l2, σ1, σ2. eexists _, _. split_and!.
    + done.
    + unfold IRHandle_ctor_node. simpl. subst σ1.
      rewrite lookup_insert_eq. simpl. reflexivity.
    + done.
    + unfold IRHandle_ctor_node. simpl. fold σ1 σ1' l2 σ2. subst σ2.
      rewrite lookup_insert_eq. simpl. reflexivity.
    + simpl. rewrite lookup_insert_ne by done. apply lookup_insert_eq.
    + simpl. apply lookup_insert_eq.
    + simpl. fold σ1 σ1' l2 σ2. subst σ2.
      rewrite insert_insert_eq, lookup_insert_ne by done.
      subst σ1'. apply lookup_insert_eq.
    + simpl. fold σ1 σ1' l2 σ2. subst σ2.
      rewrite insert_insert_eq. apply lookup_insert_eq.
    + unfold sameAs. apply bool_decide_eq_false. congruence.
  - intros s s' o x node Ho Hc. unfold IRHandle_ctor_copy in Hc.
    rewrite Ho in Hc. unfold result_bind at 1, IRHandle_ctor_node in Hc.
    apply result_bind_Ok in Hc as ([[] σ'] & Hi & [= <-]). simpl.
    split_and!.
    + apply read_node_Ok in Ho as [(y & -> & Hy)|(p & i & np & -> & Hp & Hm)];
        simpl.
      * destruct (decide (x = y)) as [->|Hne].
        -- by rewrite lookup_insert_eq.
        -- by rewrite lookup_insert_ne, Hy.
      * destruct (incref_keeps_nodes _ _ _ _ _ Hi Hp) as (np' & -> & ->).
        by rewrite Hm.
    + apply lookup_insert_eq.
    + unfold sameAs. by apply bool_decide_eq_true.
Qed.

Lemma sameAs_is_identity_witness :
  read_node five_state (InScope "h") = Ok (Some 1%positive) ∧
  IRHandle_ctor_copy "g" (InScope "h") five_state
    = Ok (MkState {[1%positive := MkNode 2 (IntImm 5)]}
                  (<["g" := Some 1%positive]> (vars five_state))) ∧
  sameAs (Some 1%positive) (Some 1%positive) = true.
Proof.
  assert (read_node five_state (InScope "h") = Ok (Some 1%positive)) as Hh
    by (vm_compute; reflexivity).
  assert (IRHandle_ctor_copy "g" (InScope "h") five_state
    = Ok (MkState {[1%positive := MkNode 2 (IntImm 5)]}
                  (<["g" := Some 1%positive]> (vars five_state)))) as Hc
    by (vm_compute; reflexivity).
  split_and!; [exact Hh|exact Hc|].
  exact (proj2 (proj2 (proj2 (proj2 sameAs_is_identity) _ _ _ _ _ Hh Hc))).
Defined.

(** C5, as stated, fails: two empty handles ([Expr a; Expr b;]) are
    [sameAs] one another, and neither refers to a node. *)
Lemma sameAs_of_empty_handles :
  ¬ (∀ h1 h2 : option loc,
       sameAs h1 h2 = true ↔ ∃ l, h1 = Some l ∧ h2 = Some l).
Proof.
  intros H. destruct (proj1 (H None None)) as (l & [=] & _). reflexivity.
Qed.

(** C6: with [produce] and [consume] present, [Pipeline] is built both
    without and with an [update]; with [produce] or [consume] empty the
    constructor is stopped by a failed assertion. *)
Theorem Pipeline_update_is_optional (σ : gmap loc IRNode) (b : string)
    (p u c : Stmt) :
  live_in (dom σ) (stmt_node p) → live_in (dom σ) (stmt_node u) →
  live_in (dom σ) (stmt_node c) →
  (defined (stmt_node p) = true → defined (stmt_node c) = true →
     (∃ l σ', new_Pipeline b p (MkStmt None) c σ = Ok (l, σ') ∧
              σ' !! l = Some (MkNode 0 (Pipeline b p (MkStmt None) c))) ∧
     (∃ l σ', new_Pipeline b p u c σ = Ok (l, σ') ∧
              σ' !! l = Some (MkNode 0 (Pipeline b p u c)))) ∧
  (defined (stmt_node p) = false ∨ defined (stmt_node c) = false →
     new_Pipeline b p u c σ = AssertFail "Pipeline of undefined").
Proof.
  intros Lp Lu Lc. split.
  - intros Dp Dc. split.
    + destruct (construct_live (NewPipeline b p (MkStmt None) c) σ)
        as (σ1 & _ & H).
      { simpl. repeat (apply Forall_cons; split; [done|]). apply Forall_nil_2. }
      simpl in H. rewrite Dp, Dc in H. simpl in H.
      eexists _, _. split; [exact H|apply lookup_insert_eq].
    + destruct (construct_live (NewPipeline b p u c) σ) as (σ1 & _ & H).
      { simpl. repeat (apply Forall_cons; split; [done|]). apply Forall_nil_2. }
      simpl in H. rewrite Dp, Dc in H. simpl in H.
      eexists _, _. split; [exact H|apply lookup_insert_eq].
  - intros Hd. unfold new_Pipeline.
    destruct (Stmt_copy_live _ p σ eq_refl Lp) as (σ1 & E1 & D1).
    rewrite <-D1 in Lu, Lc.
    destruct (Stmt_copy_live _ u σ1 eq_refl Lu) as (σ2 & E2 & D2).
    rewrite <-D2 in Lc.
    destruct (Stmt_copy_live _ c σ2 eq_refl Lc) as (σ3 & E3 & D3).
    rewrite (bind_Ok _ _ _ _ _ E1), (bind_Ok _ _ _ _ _ E2), (bind_Ok _ _ _ _ _ E3).
    rewrite !bind_assert.
    destruct Hd as [-> | ->]; [done|]. by destruct (defined (stmt_node p)).
Qed.

Lemma Pipeline_update_is_optional_witness :
  ∃ l σ', new_Pipeline "buf" sample_Stmt (MkStmt None) sample_Stmt sample_heap
            = Ok (l, σ') ∧
          σ' !! l = Some (MkNode 0 (Pipeline "buf" sample_Stmt (MkStmt None)
                                      sample_Stmt)).
Proof.
  assert (live_in (dom sample_heap) (stmt_node sample_Stmt)) as L
    by (change (2%positive ∈ dom sample_heap); apply elem_of_dom;
        eexists; reflexivity).
  exact (proj1 (proj1 (Pipeline_update_is_optional sample_heap "buf"
                  sample_Stmt (MkStmt None) sample_Stmt L I L)
                eq_refl eq_refl)).
Defined.

(** C7: with [base] and [stride] present, [Ramp] is stopped by the
    failed width assertion when [w <= 0] and is built, holding [base],
    [stride] and [w] as given, when [w >= 1]. *)
Theorem Ramp_width_positive (σ : gmap loc IRNode) (b s : Expr) (w : Z) :
  live_in (dom σ) (expr_node b) → live_in (dom σ) (expr_node s) →
  defined (expr_node b) = true → defined (expr_node s) = true →
  (w ≤ 0 → new_Ramp b s w σ = AssertFail "Ramp of width <= 0") ∧
  (1 ≤ w → ∃ l σ', new_Ramp b s w σ = Ok (l, σ') ∧
                    σ' !! l = Some (MkNode 0 (Ramp b s w))).
Proof.
  intros Lb Ls Db Ds. split.
  - intros Hw. unfold new_Ramp.
    destruct (Expr_copy_live _ b σ eq_refl Lb) as (σ1 & E1 & D1).
    rewrite <-D1 in Ls.
    destruct (Expr_copy_live _ s σ1 eq_refl Ls) as (σ2 & E2 & D2).
    rewrite (bind_Ok _ _ _ _ _ E1), (bind_Ok _ _ _ _ _ E2).
    rewrite !bind_assert, Db, Ds. rewrite bool_decide_eq_false_2; [done|lia].
  - intros Hw. destruct (construct_live (NewRamp b s w) σ) as (σ1 & _ & H).
    { simpl. repeat (apply Forall_cons; split; [done|]). apply Forall_nil_2. }
    simpl in H. rewrite Db, Ds in H. simpl in H.
    rewrite bool_decide_eq_true_2 in H by lia.
    eexists _, _. split; [exact H|apply lookup_insert_eq].
Qed.

Lemma Ramp_width_positive_witness :
  new_Ramp sample_Expr sample_Expr 0 sample_heap
    = AssertFail "Ramp of width <= 0" ∧
  ∃ l σ', new_Ramp sample_Expr sample_Expr 8 sample_heap = Ok (l, σ') ∧
          σ' !! l = Some (MkNode 0 (Ramp sample_Expr sample_Expr 8)).
Proof.
  assert (live_in (dom sample_heap) (expr_node sample_Expr)) as L
    by (change (1%positive ∈ dom sample_heap); apply elem_of_dom;
        eexists; reflexivity).
  split.
  - apply (proj1 (Ramp_width_positive sample_heap sample_Expr sample_Expr 0
                    L L eq_refl eq_refl)). lia.
  - apply (proj2 (Ramp_width_positive sample_heap sample_Expr sample_Expr 8
                    L L eq_refl eq_refl)). lia.
Defined.

(** C8: [IRHandle::accept] dereferences [node] without testing it.  On
    a handle that is empty or refers to an allocated node, the call is
    defined exactly when [defined()] holds; on an empty handle it is a
    null dereference whatever the visitor and the free store are. *)
Theorem accept_requires_defined {V} (v : IRVisitor V) (σ : gmap loc IRNode)
    (node : option loc) (st : V) :
  live_in (dom σ) node →
  ((∃ st', IRHandle_accept v node σ st = Ok st') ↔ defined node = true) ∧
  (defined node = false → IRHandle_accept v node σ st = Undefined) ∧
  (∀ l n, node = Some l → σ !! l = Some n →
     IRHandle_accept v node σ st = Ok (IRNode_accept v (fields n) st)).
Proof.
  intros Hl. destruct node as [l|]; simpl in *.
  - apply elem_of_dom in Hl as [n Hn]. rewrite Hn. split_and!.
    + split; [done|]. intros _. by eexists.
    + done.
    + intros l' n' [= <-]. rewrite Hn. by intros [= <-].
  - split_and!; [|done|done]. split; [|done]. by intros [st' ?].
Qed.

Lemma accept_requires_defined_witness :
  live_in (dom sample_heap) None ∧
  IRHandle_accept recorder None sample_heap [] = Undefined.
Proof.
  split; [exact I|].
  exact (proj1 (proj2 (accept_requires_defined recorder sample_heap None [] I))
           eq_refl).
Defined.

(** C9 fails on the code: [h = h], with [h] the only holder of
    [IntImm(5)], deletes the node and leaves [h] empty. *)
Theorem self_assignment_drops_sole_holder :
  wf_state five_state ∧
  vars five_state !! "h" = Some (Some 1%positive) ∧
  heap five_state !! 1%positive = Some (MkNode 1 (IntImm 5)) ∧
  IRHandle_assign "h" (InScope "h") five_state = Ok (MkState ∅ {["h" := None]}).
Proof.
  split_and!; [exact five_state_wf|reflexivity|reflexivity|].
  vm_compute. reflexivity.
Qed.

(** C10: a constructor that takes a list of arguments accepts the empty
    list: [Call], [PrintStmt], [Provide] (with its value present) and
    [Realize] (with its body present) are built with no argument and no
    bound. *)
Theorem empty_argument_lists_accepted (σ : gmap loc IRNode) :
  (∀ ty b ct, ∃ l σ', new_Call ty b [] ct σ = Ok (l, σ') ∧
                      σ' !! l = Some (MkNode 0 (Call ty b [] ct))) ∧
  (∀ p, ∃ l σ', new_PrintStmt p [] σ = Ok (l, σ') ∧
                σ' !! l = Some (MkNode 0 (PrintStmt p []))) ∧
  (∀ b v, live_in (dom σ) (expr_node v) → defined (expr_node v) = true →
          ∃ l σ', new_Provide b v [] σ = Ok (l, σ') ∧
                  σ' !! l = Some (MkNode 0 (Provide b v []))) ∧
  (∀ buf ty bod, live_in (dom σ) (stmt_node bod) →
                 defined (stmt_node bod) = true →
          ∃ l σ', new_Realize buf ty [] bod σ = Ok (l, σ') ∧
                  σ' !! l = Some (MkNode 0 (Realize buf ty [] bod))).
Proof.
  split_and!.
  - intros ty b ct. eexists _, _. split; [reflexivity|apply lookup_insert_eq].
  - intros p. eexists _, _. split; [reflexivity|apply lookup_insert_eq].
  - intros b v Lv Dv.
    destruct (construct_live (NewProvide b v []) σ) as (σ1 & _ & H).
    { simpl. repeat (apply Forall_cons; split; [done|]). apply Forall_nil_2. }
    simpl in H. rewrite Dv in H. simpl in H.
    eexists _, _. split; [exact H|apply lookup_insert_eq].
  - intros buf ty bod Lb Db.
    destruct (construct_live (NewRealize buf ty [] bod) σ) as (σ1 & _ & H).
    { simpl. repeat (apply Forall_cons; split; [done|]). apply Forall_nil_2. }
    simpl in H. rewrite Db in H. simpl in H.
    eexists _, _. split; [exact H|apply lookup_insert_eq].
Qed.

Lemma empty_argument_lists_accepted_witness :
  ∃ l σ', new_Provide "buf" sample_Expr [] sample_heap = Ok (l, σ') ∧
          σ' !! l = Some (MkNode 0 (Provide "buf" sample_Expr [])).
Proof.
  assert (live_in (dom sample_heap) (expr_node sample_Expr)) as L
    by (change (1%positive ∈ dom sample_heap); apply elem_of_dom;
        eexists; reflexivity).
  exact (proj1 (proj2 (proj2 (empty_argument_lists_accepted sample_heap)))
           "buf" sample_Expr L eq_refl).
Defined.

(** * More of the code *)

(** X1: in a tidy state, destroying a handle object returns, keeps the
    state tidy, and frees exactly the nodes that no remaining handle
    object reaches: what is allocated afterwards is what was reachable
    from the other handles, with the members it had. *)
Theorem dtor_frees_exactly_the_unreachable (s : state) (h : string)
    (node : option loc) :
  tidy s → vars s !! h = Some node →
  ∃ s', IRHandle_dtor h s = Ok s' ∧ tidy s' ∧
        vars s' = delete h (vars s) ∧
        (∀ x, is_Some (heap s' !! x) ↔
              reachable (heap s) (var_refs (delete h (vars s))) x) ∧
        (∀ x n', heap s' !! x = Some n' →
           ∃ n, heap s !! x = Some n ∧ fields n = fields n').
Proof.
  intros Ht Hh.
  destruct (IRHandle_dtor_tidy s h node Ht Hh) as (s' & Hd & Ht' & Hv & Hrel).
  exists s'. split_and!; [done..| |].
  - pose proof (released_same_fields _ _ Hrel) as Hf.
    destruct Ht' as [He' Ha']. rewrite Hv in He'. intros x. split.
    + intros Hx. eapply reachable_same_fields; [exact Hf|].
      by apply exact_reachable.
    + intros Hx. apply (reachable_allocated _ _ _ He').
      by eapply reachable_kept.
  - intros x n' Hx. destruct (Hrel x n' Hx) as (n & Hn & E & _). by exists n.
Qed.

Lemma dtor_frees_exactly_the_unreachable_witness :
  tidy shared_state ∧
  ∃ s', IRHandle_dtor "e" shared_state = Ok s' ∧
        (is_Some (heap s' !! 1%positive) ↔
         reachable (heap shared_state)
           (var_refs (delete "e" (vars shared_state))) 1%positive).
Proof.
  split; [exact shared_state_tidy|].
  destruct (dtor_frees_exactly_the_unreachable shared_state "e"
              (Some 3%positive) shared_state_tidy eq_refl)
    as (s' & Hd & _ & _ & Hx & _).
  exists s'. split; [exact Hd|apply Hx].
Defined.

(** X2: in a tidy state with a single handle object in scope,
    destroying it leaves the free store empty: nothing leaks. *)
Theorem last_handle_frees_everything (s : state) (h : string)
    (node : option loc) :
  tidy s → vars s = {[h := node]} →
  ∃ s', IRHandle_dtor h s = Ok s' ∧ heap s' = ∅ ∧ vars s' = ∅.
Proof.
  intros Ht Hv.
  assert (vars s !! h = Some node) as Hh by (rewrite Hv; apply lookup_singleton_eq).
  destruct (IRHandle_dtor_tidy s h node Ht Hh) as (s' & Hd & [He' Ha'] & Hv' & _).
  exists s'. rewrite Hv' in *. rewrite Hv, delete_singleton_eq in *.
  split_and!; [done| |done].
  apply map_empty. intros x. apply eq_None_not_Some. intros Hx.
  apply (not_reachable_empty (heap s') x).
  unfold var_refs in He'. rewrite refs_of_empty in He'.
  by apply exact_reachable.
Qed.

Lemma last_handle_frees_everything_witness :
  tidy add_state ∧ vars add_state = {["e" := Some 3%positive]} ∧
  ∃ s', IRHandle_dtor "e" add_state = Ok s' ∧ heap s' = ∅ ∧ vars s' = ∅.
Proof.
  split_and!; [exact add_state_tidy|reflexivity|].
  exact (last_handle_frees_everything add_state "e" (Some 3%positive)
           add_state_tidy eq_refl).
Defined.

(** X3: tidiness (exact counts, no cycle) holds when the program starts
    and is kept by every operation on handle objects that runs with
    room in the [int].  Declaring an empty handle, building a node into
    a new handle, copy construction (from a handle in scope or a handle
    member of a node) and destruction return and leave a tidy state.
    So does assignment, [h = h] included, from every handle object that
    is still there once the old referent of the target is released;
    from a handle member of a node that this release deallocates, the
    assignment reads deallocated storage and is undefined. *)
Theorem tidy_is_kept :
  tidy (MkState ∅ ∅) ∧
  ∀ s : state, tidy s →
    (∀ x, vars s !! x = None →
       ∃ s', IRHandle_ctor x s = Ok s' ∧ tidy s') ∧
    (∀ x c l σ', vars s !! x = None →
       headroom (heap s) (members (node_of c)) →
       construct c (heap s) = Ok (l, σ') →
       ∃ s', IRHandle_ctor_node x (Some l) (MkState σ' (vars s)) = Ok s' ∧
             tidy s') ∧
    (∀ x o node, vars s !! x = None → read_node s o = Ok node →
       (∀ l n, node = Some l → heap s !! l = Some n → ref_count n < INT_MAX) →
       ∃ s', IRHandle_ctor_copy x o s = Ok s' ∧ tidy s') ∧
    (∀ h o node new, vars s !! h = Some node → read_node s o = Ok new →
       (∀ m nm, new = Some m → heap s !! m = Some nm → ref_count nm < INT_MAX) →
       (∀ p i, o = Member p i →
          reachable (heap s) (var_refs (delete h (vars s))) p) →
       ∃ s', IRHandle_assign h o s = Ok s' ∧ tidy s') ∧
    (∀ h p i node, vars s !! h = Some node →
       ¬ reachable (heap s) (var_refs (delete h (vars s))) p →
       IRHandle_assign h (Member p i) s = Undefined) ∧
    (∀ h node, vars s !! h = Some node →
       ∃ s', IRHandle_dtor h s = Ok s' ∧ tidy s').
Proof.
  split.
  - split.
    + apply exact_intro; simpl.
      * intros c Hc. unfold heap_refs, var_refs in Hc.
        rewrite !refs_of_empty in Hc. multiset_solver.
      * intros c n Hc. by rewrite lookup_empty in Hc.
    + exists (λ _, 0%nat). apply ranked_intro. simpl. intros p n c Hp.
      by rewrite lookup_empty in Hp.
  - intros s Ht. split_and!.
    + intros x Hx. eexists. split; [done|]. destruct Ht as [He Ha].
      split; [|done]. simpl.
      by rewrite var_refs_insert, handle_refs_None, (left_id ∅ _).
    + intros x c l σ' Hx Hroom Hc.
      destruct (IRHandle_ctor_node_tidy c s l σ' x Ht Hx Hroom Hc)
        as (s' & H1 & H2 & _). by exists s'.
    + intros x o node Hx Ho Hroom.
      destruct (IRHandle_ctor_copy_tidy s x o node Ht Hx Ho Hroom)
        as (s' & H1 & H2 & _). by exists s'.
    + intros h o node new Hh Ho Hroom Hreach.
      destruct (decide (o = InScope h)) as [->|Hne].
      * destruct (IRHandle_self_assign_tidy s h node Ht Hh)
          as (s' & node' & H1 & H2 & _). by exists s'.
      * destruct (IRHandle_assign_tidy s h o node new Ht Hh Hne Ho Hreach Hroom)
          as (s' & σ1 & H1 & H2 & _). by exists s'.
    + intros h p i node Hh Hnr. by apply (IRHandle_assign_freed s h p i node).
    + intros h node Hh.
      destruct (IRHandle_dtor_tidy s h node Ht Hh) as (s' & H1 & H2 & _).
      by exists s'.
Qed.

Lemma tidy_is_kept_witness :
  tidy shared_state ∧
  (∃ s', IRHandle_assign "e" (InScope "a") shared_state = Ok s' ∧ tidy s') ∧
  IRHandle_assign "e" (Member 3%positive 0) shared_state = Undefined.
Proof.
  split; [exact shared_state_tidy|].
  destruct (proj2 tidy_is_kept shared_state shared_state_tidy)
    as (_ & _ & _ & Ha & Hu & _).
  split.
  - apply (Ha "e" (InScope "a") (Some 3%positive) (Some 1%positive));
      [reflexivity..| |discriminate].
    intros m nm [= <-] Hm. vm_compute in Hm. injection Hm as <-. done.
  - apply (Hu "e" 3%positive 0%nat (Some 3%positive)); [reflexivity|].
    apply (not_reachable_after_dtor shared_state "e" (Some 3%positive)
             (MkState {[1%positive := MkNode 1 (IntImm 1)]}
                      {["a" := Some 1%positive]}));
      [exact shared_state_tidy|reflexivity|vm_compute; reflexivity|reflexivity].
Defined.

(** X4: in a tidy state, an assignment between two handle objects that
    exist goes wrong in one way only.  It is undefined exactly if its
    right side is a handle member of a node that no handle object other
    than the target reaches: [decref] deletes that node, and the right
    side with it, before [other.node] is read.  In every other case,
    [h = h] included, the assignment returns. *)
Theorem assign_undefined_iff_source_freed (s : state) (h : string) (o : place)
    (node new : option loc) :
  tidy s → vars s !! h = Some node → read_node s o = Ok new →
  (IRHandle_assign h o s = Undefined ↔
     ∃ p i, o = Member p i ∧
            ¬ reachable (heap s) (var_refs (delete h (vars s))) p) ∧
  (IRHandle_assign h o s = Undefined ∨ ∃ s', IRHandle_assign h o s = Ok s').
Proof.
  intros Ht Hh Ho.
  assert ((∃ p i, o = Member p i ∧
             ¬ reachable (heap s) (var_refs (delete h (vars s))) p) ∨
          (∃ s', IRHandle_assign h o s = Ok s')) as [Hbad|[s' Hok]].
  { destruct (decide (o = InScope h)) as [->|Hne].
    - right. destruct (IRHandle_self_assign_tidy s h node Ht Hh)
        as (s' & node' & H1 & _). by exists s'.
    - destruct o as [x|p i].
      + right. destruct (IRHandle_assign_returns s h (InScope x) node new
                           Ht Hh Hne Ho) as (s' & H1 & _); [done|].
        by exists s'.
      + destruct (reachable_without_dec s h node p Ht Hh) as [Hr|Hnr].
        * right. destruct (IRHandle_assign_returns s h (Member p i) node new
                             Ht Hh Hne Ho) as (s' & H1 & _).
          { by intros p' i' [= <- <-]. }
          by exists s'.
        * left. by exists p, i. }
  - destruct Hbad as (p & i & -> & Hnr).
    pose proof (IRHandle_assign_freed s h p i node Ht Hh Hnr) as Hu.
    split; [|by left]. split; [|done]. intros _. by exists p, i.
  - split; [|right; by exists s'].
    split; [congruence|]. intros (p & i & -> & Hnr).
    pose proof (IRHandle_assign_freed s h p i node Ht Hh Hnr). congruence.
Qed.

Lemma assign_undefined_iff_source_freed_witness :
  tidy shared_state ∧
  read_node shared_state (Member 3%positive 0) = Ok (Some 1%positive) ∧
  IRHandle_assign "e" (Member 3%positive 0) shared_state = Undefined ∧
  ∃ p i, Member 3%positive 0 = Member p i ∧
         ¬ reachable (heap shared_state)
             (var_refs (delete "e" (vars shared_state))) p.
Proof.
  assert (IRHandle_assign "e" (Member 3%positive 0) shared_state = Undefined)
    as Hu by (vm_compute; reflexivity).
  split_and!; [exact shared_state_tidy|reflexivity|exact Hu|].
  apply (proj1 (assign_undefined_iff_source_freed shared_state "e"
                  (Member 3%positive 0) (Some 3%positive) (Some 1%positive)
                  shared_state_tidy eq_refl eq_refl)).
  exact Hu.
Defined.

(** X5: copy constructing a handle and destroying the copy gives back
    the state it started from, counts included. *)
Theorem copy_then_destroy_is_identity (s : state) (x h : string)
    (node : option loc) :
  wf_state s → vars s !! x = None → vars s !! h = Some node →
  (∀ l n, node = Some l → heap s !! l = Some n → ref_count n < INT_MAX) →
  ∃ s1, IRHandle_ctor_copy x (InScope h) s = Ok s1 ∧
        vars s1 !! x = Some node ∧ IRHandle_dtor x s1 = Ok s.
Proof.
  intros Hwf Hx Hh Hroom. destruct node as [l|].
  - destruct (counted_lookup _ _ l Hwf) as (n & Hn & Hlo & _).
    { rewrite (var_refs_delete _ _ _ Hh), handle_refs_Some. multiset_solver. }
    assert (1 ≤ ref_count n) as Hpos.
    { rewrite (var_refs_delete _ _ _ Hh), handle_refs_Some in Hlo.
      rewrite !multiplicity_disj_union, multiplicity_singleton_eq in Hlo. lia. }
    destruct (IRHandle_ctor_copy_counted s h x l n Hwf Hh Hx Hn) as [Hc Hwf1].
    { by eapply Hroom. }
    eexists. split; [exact Hc|]. split; [apply lookup_insert_eq|].
    destruct (IRHandle_dtor_counted _ x l _ Hwf1 (lookup_insert_eq _ _ _)
                (lookup_insert_eq _ _ _)) as (s2 & Hd & _ & Hv & _ & _ & H2).
    rewrite Hd. f_equal. destruct s as [σ vs], s2 as [σ2 vs2]. simpl in *.
    f_equal.
    + rewrite H2 by lia. rewrite insert_insert_eq. apply insert_id.
      rewrite Hn. f_equal. destruct n as [k d]. unfold set_ref_count. simpl.
      f_equal. lia.
    + rewrite Hv. by apply delete_insert_id.
  - eexists. split; [unfold IRHandle_ctor_copy; simpl; rewrite Hh; reflexivity|].
    split; [apply lookup_insert_eq|].
    unfold IRHandle_dtor. simpl. rewrite lookup_insert_eq. simpl.
    destruct s as [σ vs]. simpl in *. by rewrite delete_insert_id.
Qed.

Lemma copy_then_destroy_is_identity_witness :
  wf_state add_state ∧
  ∃ s1, IRHandle_ctor_copy "f" (InScope "e") add_state = Ok s1 ∧
        vars s1 !! "f" = Some (Some 3%positive) ∧
        IRHandle_dtor "f" s1 = Ok add_state.
Proof.
  split; [exact add_state_wf|].
  apply (copy_then_destroy_is_identity add_state "f" "e" (Some 3%positive)
           add_state_wf eq_refl eq_refl).
  intros l n [= <-] Hn. vm_compute in Hn. injection Hn as <-. done.
Defined.

(** X6: building a node into a new handle and destroying that handle
    gives back the state it started from: the new node is freed and the
    counts of its children are what they were. *)
Theorem build_then_destroy_is_identity (s : state) (x : string) (c : New)
    (l : loc) (σ' : gmap loc IRNode) :
  tidy s → vars s !! x = None →
  headroom (heap s) (members (node_of c)) →
  construct c (heap s) = Ok (l, σ') →
  ∃ s1, IRHandle_ctor_node x (Some l) (MkState σ' (vars s)) = Ok s1 ∧
        heap s1 !! l = Some (MkNode 1 (node_of c)) ∧
        IRHandle_dtor x s1 = Ok s.
Proof.
  intros Ht Hx Hroom Hc.
  destruct (IRHandle_ctor_node_tidy c s l σ' x Ht Hx Hroom Hc)
    as (s1 & H1 & Ht1 & Hv1 & Hl & Hl1).
  exists s1. split; [done|]. split; [done|].
  assert (vars s1 !! x = Some (Some l)) as Hx1 by (rewrite Hv1; apply lookup_insert_eq).
  destruct (IRHandle_dtor_tidy s1 x _ Ht1 Hx1) as (s2 & Hd & Ht2 & Hv2 & Hrel).
  rewrite Hd. f_equal.
  assert (vars s2 = vars s) as Hv by (rewrite Hv2, Hv1; by apply delete_insert_id).
  (* the nodes of [s] are nodes of [s1], with their members *)
  apply construct_copy_handles in Hc as (σ1 & Hcp & El & ->).
  destruct Ht as [He Ha].
  destruct (copy_handles_exact _ _ _ _ He Hroom Hcp) as (_ & Hd1 & Hf1).
  assert (heap s1 = <[l := MkNode 1 (node_of c)]> σ1) as Hs1.
  { unfold IRHandle_ctor_node in H1. simpl in H1.
    rewrite lookup_insert_eq in H1. simpl in H1. injection H1 as <-. simpl.
    by rewrite insert_insert_eq. }
  assert (∀ p n, heap s !! p = Some n →
            ∃ n', heap s1 !! p = Some n' ∧ fields n' = fields n) as Hkeep.
  { intros p n Hp. assert (p ≠ l) as Hpl by congruence.
    assert (is_Some (σ1 !! p)) as [n1 Hn1].
    { apply elem_of_dom. rewrite Hd1. by apply elem_of_dom_2 in Hp. }
    destruct (Hf1 p n1 Hn1) as (n0 & Hn0 & E). exists n1.
    rewrite Hs1, lookup_insert_ne by done. split; [done|congruence]. }
  destruct Ht1 as [He1 Ha1]. destruct Ht2 as [He2 Ha2].
  rewrite Hv in He2. rewrite Hv1 in He1.
  rewrite var_refs_insert, handle_refs_Some in He1 by done.
  destruct s as [σ vs], s2 as [σ2 vs2]. simpl in *. subst vs2.
  f_equal; [|congruence].
  apply (exact_unique σ2 σ (var_refs vs) He2 He). intros y.
  destruct (σ !! y) as [n|] eqn:Hn.
  - destruct (Hkeep y n Hn) as (n1 & Hn1 & E1).
    assert (reachable (heap s1) (var_refs vs) y) as Hr.
    { apply (reachable_mono σ); [done|].
      apply exact_reachable; [done..|by eexists]. }
    assert (reachable σ2 (var_refs vs) y) as Hr2.
    { eapply reachable_kept; [by apply released_same_fields|done|done]. }
    destruct (reachable_allocated _ _ _ He2 Hr2) as [n2 Hn2].
    destruct (Hrel y n2 Hn2) as (n1' & Hn1' & E2 & _).
    rewrite Hn2. simpl. f_equal. congruence.
  - destruct (σ2 !! y) as [n2|] eqn:Hn2; [|done]. exfalso.
    destruct (Hrel y n2 Hn2) as (n1 & Hn1 & _).
    assert (y = l) as ->.
    { rewrite Hs1 in Hn1. destruct (decide (l = y)) as [|Hne]; [done|].
      rewrite lookup_insert_ne in Hn1 by done.
      apply elem_of_dom_2 in Hn1. rewrite Hd1 in Hn1.
      apply elem_of_dom in Hn1 as [? ?]. congruence. }
    destruct (exact_node _ _ _ _ He1 Hn1) as [Hcnt _].
    rewrite Hs1, lookup_insert_eq in Hn1. injection Hn1 as <-. simpl in Hcnt.
    rewrite !multiplicity_disj_union, multiplicity_singleton_eq in Hcnt.
    assert (reachable (heap s1) (var_refs vs) l) as Hr.
    { eapply reachable_same_fields; [by apply released_same_fields|].
      apply exact_reachable; [done..|by eexists]. }
    inversion Hr as [l' Hroot E'|p np l' _ Hp Hmem E']; subst l'.
    + rewrite elem_of_multiplicity in Hroot. lia.
    + assert (l ∈ heap_refs (heap s1)) as Hin
        by (apply elem_of_heap_refs; by exists p, np).
      rewrite elem_of_multiplicity in Hin. lia.
Qed.

Lemma build_then_destroy_is_identity_witness :
  tidy add_state ∧
  ∃ s1, IRHandle_ctor_node "m" (Some 4%positive)
          (MkState (<[4%positive := MkNode 0 (Mul (MkExpr (Some 3%positive))
                                               (MkExpr (Some 3%positive)))]>
                      (<[3%positive := MkNode 3 (Add (MkExpr (Some 1%positive))
                                               (MkExpr (Some 2%positive)))]>
                         (heap add_state)))
                   (vars add_state)) = Ok s1 ∧
        IRHandle_dtor "m" s1 = Ok add_state.
Proof.
  split; [exact add_state_tidy|].
  destruct (build_then_destroy_is_identity add_state "m"
              (NewMul (MkExpr (Some 3%positive)) (MkExpr (Some 3%positive)))
              4%positive
              (<[4%positive := MkNode 0 (Mul (MkExpr (Some 3%positive))
                                             (MkExpr (Some 3%positive)))]>
                 (<[3%positive := MkNode 3 (Add (MkExpr (Some 1%positive))
                                             (MkExpr (Some 2%positive)))]>
                    (heap add_state)))
              add_state_tidy eq_refl) as (s1 & H1 & _ & H2).
  - intros l n Hin Hn. simpl in Hin.
    assert (l = 3%positive) as ->.
    { apply list_elem_of_In in Hin. simpl in Hin.
      destruct Hin as [[= ->]|[[= ->]|[]]]; done. }
    vm_compute in Hn. injection Hn as <-. simpl. unfold INT_MAX. lia.
  - vm_compute. reflexivity.
  - by exists s1.
Defined.

(** ** Constructors and the counts of the children *)

(** X7: a constructor that returns puts the new node, with count 0, at
    an address that was free, and leaves every other node in place with
    its members; the count of an older node has grown by the number of
    handle members of the new node that refer to it (two for the [a] of
    [Add(a, a)]), given room in the [int]. *)
Theorem constructor_shares_children (c : New) (σ σ' : gmap loc IRNode)
    (l : loc) :
  headroom σ (members (node_of c)) →
  construct c σ = Ok (l, σ') →
  σ !! l = None ∧ dom σ' = {[l]} ∪ dom σ ∧
  σ' !! l = Some (MkNode 0 (node_of c)) ∧
  ∀ x n, σ !! x = Some n →
    ∃ n', σ' !! x = Some n' ∧ fields n' = fields n ∧
          ref_count n' = ref_count n
            + Z.of_nat (multiplicity x (handle_refs (members (node_of c)))).
Proof.
  intros Hroom H. pose proof (construct_Ok _ _ _ _ H) as (_ & _ & El & Hl & Hd).
  assert (σ !! l = None) as Hfree.
  { rewrite El. apply not_elem_of_dom, is_fresh. }
  split_and!; [done..|].
  apply construct_copy_handles in H as (σ1 & Hcp & _ & ->).
  intros x n Hx.
  destruct (copy_handles_counts _ _ _ Hroom Hcp x n Hx) as (n' & Hn' & E & C).
  exists n'. split_and!; [|done..].
  rewrite lookup_insert_ne; [done|]. intros <-. congruence.
Qed.

Lemma constructor_shares_children_witness :
  headroom sample_heap (members (node_of (NewAdd sample_Expr sample_Expr))) ∧
  ∃ n', (<[3%positive := MkNode 0 (Add sample_Expr sample_Expr)]>
           (<[1%positive := MkNode 3 (IntImm 0)]> sample_heap)) !! 1%positive
          = Some n' ∧
        ref_count n' = 1 + Z.of_nat (multiplicity 1%positive
          (handle_refs (members (node_of (NewAdd sample_Expr sample_Expr))))).
Proof.
  assert (headroom sample_heap
            (members (node_of (NewAdd sample_Expr sample_Expr)))) as Hr.
  { intros l n Hin Hn. simpl in Hin.
    assert (l = 1%positive) as ->.
    { apply list_elem_of_In in Hin. simpl in Hin.
      destruct Hin as [[= ->]|[[= ->]|[]]]; done. }
    vm_compute in Hn. injection Hn as <-. simpl. unfold INT_MAX. lia. }
  split; [exact Hr|].
  assert (construct (NewAdd sample_Expr sample_Expr) sample_heap
          = Ok (3%positive,
                <[3%positive := MkNode 0 (Add sample_Expr sample_Expr)]>
                  (<[1%positive := MkNode 3 (IntImm 0)]> sample_heap))) as Hc
    by (vm_compute; reflexivity).
  destruct (constructor_shares_children (NewAdd sample_Expr sample_Expr)
              sample_heap _ 3%positive Hr Hc)
    as (_ & _ & _ & H).
  destruct (H 1%positive (MkNode 1 (IntImm 0)) eq_refl) as (n' & Hn' & _ & C).
  exists n'. split; [exact Hn'|exact C].
Defined.

(** ** What a constructor answers *)

(** X8: on handles that are empty or allocated, a constructor fails
    exactly in two ways.  If one of the handles it asserts is empty, the
    message is the name of the struct followed by " of undefined",
    whatever else is wrong; otherwise [Ramp] with a width that is not
    positive fails with "Ramp of width <= 0" (the width is checked
    last); otherwise the constructor returns. *)
Theorem constructor_outcome (c : New) (σ : gmap loc IRNode) :
  Forall (live_in (dom σ)) (members (node_of c)) →
  if forallb defined (spec_required c)
  then if spec_bound c
       then ∃ l σ', construct c σ = Ok (l, σ')
       else construct c σ = AssertFail "Ramp of width <= 0"
  else construct c σ = AssertFail (String.append (struct_name c) " of undefined").
Proof.
  intros Hl. remember (construct c σ) as r eqn:Hr.
  set (D := dom σ) in *. assert (HD : dom σ = D) by done. clearbody D.
  destruct c; simpl in Hl, Hr; split_live;
    unfold new_IntImm, new_FloatImm, new_Cast, new_Var, new_Add, new_Sub,
      new_Mul, new_Div, new_Mod, new_Min, new_Max, new_EQ, new_NE, new_LT,
      new_LE, new_GT, new_GE, new_And, new_Or, new_Not, new_Select, new_Load,
      new_Ramp, new_Call, new_Let, new_LetStmt, new_PrintStmt, new_AssertStmt,
      new_Pipeline, new_For, new_Store, new_Provide, new_Allocate, new_Realize,
      new_Block in Hr;
    repeat copy_step Hr;
    repeat (progress (rewrite ?bind_assert, ?bind_assert_args, ?bind_assert_bounds in Hr;
            cbv beta in Hr));
    unfold new in Hr; cbv beta zeta in Hr;
    subst r; simpl spec_required; simpl spec_bound; simpl struct_name.
  all: simpl forallb; rewrite ?forallb_app_defined; simpl forallb.
  all: repeat match goal with
       | |- context [defined ?h] => destruct (defined h); simpl
       | |- context [forallb defined ?h] => destruct (forallb defined h); simpl
       end.
  all: simpl; repeat case_bool_decide; try lia; try done; by eexists _, _.
Qed.

Lemma constructor_outcome_witness :
  Forall (live_in (dom sample_heap))
    (members (node_of (NewRamp sample_Expr (MkExpr None) 0))) ∧
  construct (NewRamp sample_Expr (MkExpr None) 0) sample_heap
    = AssertFail "Ramp of undefined".
Proof.
  assert (Forall (live_in (dom sample_heap))
            (members (node_of (NewRamp sample_Expr (MkExpr None) 0)))) as Hl.
  { apply sample_heap_live. simpl.
    repeat (apply Forall_cons; split; [auto|]). apply Forall_nil_2. }
  split; [exact Hl|].
  exact (constructor_outcome (NewRamp sample_Expr (MkExpr None) 0) sample_heap Hl).
Defined.

(** ** Assignment *)

(** X9: what [h = h] does in a state whose references are counted.  On
    an empty handle, and on a handle whose node has another holder, it
    changes nothing.  On the only holder of a node it frees the node
    and leaves the handle empty, in a state that is still counted. *)
Theorem self_assignment_outcome (s : state) (h : string) (node : option loc) :
  wf_state s → vars s !! h = Some node →
  (node = None → IRHandle_assign h (InScope h) s = Ok s) ∧
  (∀ l n, node = Some l → heap s !! l = Some n → ref_count n ≠ 1 →
     IRHandle_assign h (InScope h) s = Ok s) ∧
  (∀ l n, node = Some l → heap s !! l = Some n → ref_count n = 1 →
     ∃ s', IRHandle_assign h (InScope h) s = Ok s' ∧
           vars s' !! h = Some None ∧ heap s' !! l = None).
Proof.
  intros Hwf Hh. split_and!.
  - intros ->. unfold IRHandle_assign. rewrite Hh. simpl.
    rewrite lookup_insert_eq. simpl. destruct s as [σ vs]. simpl in *.
    by rewrite insert_insert_eq, insert_id.
  - intros l n -> Hn Hc. by apply (IRHandle_self_assign_shared s h l n).
  - intros l n -> Hn Hc. by apply (IRHandle_self_assign_sole s h l n).
Qed.

Lemma self_assignment_outcome_witness :
  wf_state shared_state ∧
  IRHandle_assign "a" (InScope "a") shared_state = Ok shared_state.
Proof.
  assert (wf_state shared_state) as Hwf
    by (apply exact_counted, shared_state_tidy).
  split; [exact Hwf|].
  apply (proj1 (proj2 (self_assignment_outcome shared_state "a"
                  (Some 1%positive) Hwf eq_refl))
           1%positive (MkNode 2 (IntImm 1)) eq_refl eq_refl).
  simpl. lia.
Defined.

(** X10: for a right side other than the target itself, a handle in
    scope or a handle member of a node, assignment is destruction of
    the target followed by copy construction from the right side, in
    every state: both run [decref] on the target's node, then read the
    right side and [incref]. *)
Theorem assign_is_destroy_then_copy (s : state) (h : string) (o : place) :
  o ≠ InScope h →
  IRHandle_assign h o s =
    (let? s1 := IRHandle_dtor h s in IRHandle_ctor_copy h o s1).
Proof.
  intros Hne. unfold IRHandle_assign, IRHandle_dtor.
  destruct (vars s !! h) as [node|]; [|done].
  destruct (decref (enough (heap s)) node (heap s)) as [[node' σ1]| | |];
    cbn [result_bind fst snd]; try done.
  unfold IRHandle_ctor_copy, IRHandle_ctor_node.
  assert (read_node (MkState σ1 (<[h := node']> (vars s))) o
          = read_node (MkState σ1 (delete h (vars s))) o) as ->.
  { destruct o as [x|p i]; [|done]. assert (h ≠ x) by congruence.
    simpl. by rewrite lookup_insert_ne, lookup_delete_ne. }
  destruct (read_node _ o) as [n| | |]; cbn [result_bind heap vars]; try done.
  destruct (incref n σ1) as [[[] σ2]| | |]; cbn [result_bind fst snd]; try done.
  by rewrite insert_insert_eq, insert_delete_eq.
Qed.

Lemma assign_is_destroy_then_copy_witness :
  IRHandle_assign "e" (InScope "a") shared_state
    = Ok (MkState {[1%positive := MkNode 2 (IntImm 1)]}
                  {["a" := Some 1%positive; "e" := Some 1%positive]}).
Proof.
  rewrite (assign_is_destroy_then_copy shared_state "e" (InScope "a"));
    [|discriminate].
  vm_compute. reflexivity.
Defined.
